(** * Dog Breed Gallery: the selection / gallery state machine of [src/app/page.tsx]

    The [Home] component keeps seven [useState] cells and talks to two remote
    endpoints.  This development embeds the handlers and effects of that
    component as functions on a record of the cells, the pending promises as
    an explicit part of the state, and every user or network event as one
    step of a small executable transition function. *)

From Stdlib Require Import List String Ascii Bool Arith Lia.
From Stdlib Require Import Permutation Sorted DecimalString DecimalNat FinFun.
Import ListNotations.
Open Scope string_scope.
Open Scope list_scope.

Set Warnings "-register-all".

(** ** The platform: completions, strings, arrays, JSON values *)

Module Js.

(** A JavaScript computation either completes normally or throws; inside a
    [try] block every throw (and every rejected awaited promise) ends in the
    [catch] clause, so the thrown value itself is never inspected. *)
Inductive completion (A : Type) : Type :=
| Normal (a : A)
| Throw.
Arguments Normal {A} a.
Arguments Throw {A}.

Definition bind {A B} (c : completion A) (k : A -> completion B) : completion B :=
  match c with
  | Normal a => k a
  | Throw => Throw
  end.

Notation "x <- c ;; k" := (bind c (fun x => k))
  (at level 61, c at next level, right associativity).

(** [Promise.all] over already settled promises, and any loop whose body may
    throw: the first failure wins. *)
Fixpoint sequence {A} (l : list (completion A)) : completion (list A) :=
  match l with
  | [] => Normal []
  | c :: t => a <- c ;; r <- sequence t ;; Normal (a :: r)
  end.

(** Strings are sequences of code units below 256, which covers every breed
    name the endpoint serves.  [toLowerCase] on that range folds A-Z and the
    Latin-1 capitals (0xC0-0xDE without the multiplication sign 0xD7). *)
Definition lower_ascii (c : ascii) : ascii :=
  let n := nat_of_ascii c in
  if ((65 <=? n) && (n <=? 90) || (192 <=? n) && (n <=? 222) && negb (n =? 215))%nat
  then ascii_of_nat (n + 32)
  else c.

Fixpoint toLowerCase (s : string) : string :=
  match s with
  | EmptyString => EmptyString
  | String c t => String (lower_ascii c) (toLowerCase t)
  end.

(** [s.includes(t)]: [t] occurs in [s] as a contiguous run of code units. *)
Fixpoint includes (s t : string) : bool :=
  if String.prefix t s then true
  else match s with
       | EmptyString => false
       | String _ s' => includes s' t
       end.

(** [Array.prototype.sort()] without a comparator orders strings by code
    units.  The order is total and equal strings are identical, so every
    correct sorting algorithm returns the same array; insertion is used. *)
Fixpoint insert (x : string) (l : list string) : list string :=
  match l with
  | [] => [x]
  | y :: t => if String.leb x y then x :: y :: t else y :: insert x t
  end.

Fixpoint sort (l : list string) : list string :=
  match l with
  | [] => []
  | x :: t => insert x (sort t)
  end.

(** Values produced by [Response.json()]. Numbers keep their literal text,
    which the component never looks at.  The properties of an object are
    listed in enumeration order. *)
Inductive json : Type :=
| JNull
| JBool (b : bool)
| JNum (literal : string)
| JStr (s : string)
| JArr (items : list json)
| JObj (props : list (string * json)).

Fixpoint lookup (key : string) (props : list (string * json)) : option json :=
  match props with
  | [] => None
  | (k, v) :: t => if String.eqb k key then Some v else lookup key t
  end.

Fixpoint distinct (l : list string) : bool :=
  match l with
  | [] => true
  | x :: t => negb (existsb (String.eqb x) t) && distinct t
  end.

(** What [JSON.parse] can return: no object carries the same key twice. *)
Fixpoint wf_json (j : json) : bool :=
  match j with
  | JArr items => forallb wf_json items
  | JObj props =>
      distinct (map fst props) && forallb (fun p => wf_json (snd p)) props
  | _ => true
  end.

(** [v.message] for a parsed body [v]; [None] stands for [undefined].
    Reading a property of [null] throws; primitives and arrays have no
    property of that name. *)
Definition message (v : json) : completion (option json) :=
  match v with
  | JNull => Throw
  | JObj props => Normal (lookup "message" props)
  | _ => Normal None
  end.

Definition index_key (i : nat) : string :=
  NilEmpty.string_of_uint (Nat.to_uint i).

(** [Object.keys(v)]: throws on [undefined] and [null], lists the indices of
    a string or an array, and the own keys of an object. *)
Definition Object_keys (v : option json) : completion (list string) :=
  match v with
  | None | Some JNull => Throw
  | Some (JBool _) | Some (JNum _) => Normal []
  | Some (JStr s) => Normal (map index_key (seq 0 (String.length s)))
  | Some (JArr items) => Normal (map index_key (seq 0 (List.length items)))
  | Some (JObj props) => Normal (map fst props)
  end.

(** [v.map(f)]: only an array has a callable [map]; a JSON object may own a
    property of that name but never a function. *)
Definition Array_map {B} (f : json -> B) (v : option json) : completion (list B) :=
  match v with
  | Some (JArr items) => Normal (List.map f items)
  | _ => Throw
  end.

(** [a.flatMap((x, index) => f x index)] for a callback that returns arrays
    of non-array values and may throw. *)
Fixpoint flatMap_from {A B} (f : A -> nat -> completion (list B))
    (index : nat) (a : list A) : completion (list B) :=
  match a with
  | [] => Normal []
  | x :: t => r <- f x index ;; rest <- flatMap_from f (S index) t ;; Normal (r ++ rest)
  end.

Definition flatMap {A B} (f : A -> nat -> completion (list B)) (a : list A) :=
  flatMap_from f 0 a.

(** How a [fetch] settles: it rejects when the network fails, and otherwise
    resolves to a response whatever its status.  [body] is [None] when the
    text of the body is not JSON, in which case [json()] rejects. *)
Inductive fetch_result : Type :=
| NetworkError
| HttpResponse (status : nat) (body : option json).

(** [await fetch(url).then(res => res.json())] *)
Definition fetch_json (r : fetch_result) : completion json :=
  match r with
  | NetworkError => Throw
  | HttpResponse _ None => Throw
  | HttpResponse _ (Some v) => Normal v
  end.

Definition wf_result (r : fetch_result) : bool :=
  match r with
  | HttpResponse _ (Some v) => wf_json v
  | _ => true
  end.

End Js.
Import Js.

(** ** The component *)

Record ImageEntry : Type := mkImage { url : json; breed : string }.

Inductive Theme : Type := Light | Dark | DogTheme.

(** The [value] of the three radio items. *)
Definition className (t : Theme) : string :=
  match t with
  | Light => "light"
  | Dark => "dark"
  | DogTheme => "dog-theme"
  end.

(** The [useState] cells of [Home], with the names of the source. *)
Record Home : Type := mkHome {
  breeds : list string;
  selectedBreeds : list string;
  searchTerm : string;
  images : list ImageEntry;
  theme : string;
  showBreedNames : bool;
  error : option string
}.

Definition setBreeds (v : list string) (h : Home) : Home :=
  mkHome v (selectedBreeds h) (searchTerm h) (images h) (theme h) (showBreedNames h) (error h).
Definition setSelectedBreeds (v : list string) (h : Home) : Home :=
  mkHome (breeds h) v (searchTerm h) (images h) (theme h) (showBreedNames h) (error h).
Definition setSearchTerm (v : string) (h : Home) : Home :=
  mkHome (breeds h) (selectedBreeds h) v (images h) (theme h) (showBreedNames h) (error h).
Definition setImages (v : list ImageEntry) (h : Home) : Home :=
  mkHome (breeds h) (selectedBreeds h) (searchTerm h) v (theme h) (showBreedNames h) (error h).
Definition setTheme (v : string) (h : Home) : Home :=
  mkHome (breeds h) (selectedBreeds h) (searchTerm h) (images h) v (showBreedNames h) (error h).
Definition setShowBreedNames (v : bool) (h : Home) : Home :=
  mkHome (breeds h) (selectedBreeds h) (searchTerm h) (images h) (theme h) v (error h).
Definition setError (v : string) (h : Home) : Home :=
  mkHome (breeds h) (selectedBreeds h) (searchTerm h) (images h) (theme h) (showBreedNames h) (Some v).

(** The initial values handed to [useState]. *)
Definition initialHome : Home := mkHome [] [] EmptyString [] "light" true None.

(** *** BreedSelector: the entries the picker renders *)

Definition filteredBreeds (breeds : list string) (searchTerm : string) : list string :=
  filter (fun breed => includes (toLowerCase breed) searchTerm) breeds.

(** *** Handlers *)

(** [prev.includes(breed)] on an array of strings. *)
Definition Array_includes (prev : list string) (breed : string) : bool :=
  existsb (String.eqb breed) prev.

(** The updater passed to [setSelectedBreeds] by [handleBreedSelection]. *)
Definition toggle (breed : string) (prev : list string) : list string :=
  if Array_includes prev breed
  then filter (fun b => negb (String.eqb b breed)) prev
  else prev ++ [breed].

Definition handleBreedSelection (breed : string) (h : Home) : Home :=
  setSelectedBreeds (toggle breed (selectedBreeds h)) h.

(** [event.target.value] is the text typed into the search box. *)
Definition handleSearch (value : string) (h : Home) : Home :=
  setSearchTerm (toLowerCase value) h.

(** [shuffled] is the array left by [[...breeds].sort(() => 0.5 - Math.random())]:
    the comparator ignores its arguments, so the order is whatever the
    engine's sort makes of the random signs; the elements are those of
    [breeds]. *)
Definition loadRandomBreeds (shuffled : list string) (h : Home) : Home :=
  setSelectedBreeds (firstn 3 shuffled) h.

(** *** The two fetches *)

Definition breedsUrl : string := "https://dog.ceo/api/breeds/list/all".

Definition imagesUrl (breed : string) : string :=
  ("https://dog.ceo/api/breed/" ++ breed ++ "/images/random/3")%string.

(** The [try] block of [fetchBreeds] from the point where [fetch] settles. *)
Definition fetchBreeds_try (r : fetch_result) : completion (list string) :=
  data <- fetch_json r ;;
  m <- message data ;;
  keys <- Object_keys m ;;
  Normal (sort keys).

Definition fetchBreeds_settle (r : fetch_result) (h : Home) : Home :=
  match fetchBreeds_try r with
  | Normal sorted => setBreeds sorted h
  | Throw => setError "Error fetching breeds" h
  end.

(** The callback of [flatMap] in [fetchImages]:
    [(result, index) => result.message.map(url => ({ url, breed: selectedBreeds[index] }))].
    [selectedBreeds] is the array the invocation closed over.  An index past
    its end would read [undefined], which cannot happen: [Promise.all] yields
    one result per element of that same array. *)
Definition per_result (selectedBreeds : list string) (result : json) (index : nat)
  : completion (list ImageEntry) :=
  m <- message result ;;
  Array_map (fun url => mkImage url (nth index selectedBreeds EmptyString)) m.

Definition allImages (selectedBreeds : list string) (imageResults : list json)
  : completion (list ImageEntry) :=
  flatMap (per_result selectedBreeds) imageResults.

(** The [try] block of [fetchImages] from the point where the promises have
    settled: [Promise.all] rejects as soon as one of them does. *)
Definition fetchImages_try (selectedBreeds : list string) (rs : list fetch_result)
  : completion (list ImageEntry) :=
  imageResults <- sequence (map fetch_json rs) ;;
  allImages selectedBreeds imageResults.

Definition fetchImages_settle (selectedBreeds : list string)
    (rs : list fetch_result) (h : Home) : Home :=
  match fetchImages_try selectedBreeds rs with
  | Normal all => setImages all h
  | Throw => setError "Error fetching images" h
  end.

(** *** The component together with its pending promises *)

Record World : Type := mkWorld {
  home : Home;
  (** the call of [fetchBreeds] made on mount has not settled yet *)
  breedsPending : bool;
  (** invocations of [fetchImages] awaiting [Promise.all], oldest first, each
      with the [selectedBreeds] it closed over *)
  imagesPending : list (list string);
  (** every URL handed to [fetch] so far *)
  fetched : list string
}.

Definition with_home (f : Home -> Home) (w : World) : World :=
  mkWorld (f (home w)) (breedsPending w) (imagesPending w) (fetched w).

(** [fetchImages] up to its [await]: one request per selected breed. *)
Definition fetchImages_start (w : World) : World :=
  let selected := selectedBreeds (home w) in
  mkWorld (home w) (breedsPending w)
          (imagesPending w ++ [selected])
          (fetched w ++ map imagesUrl selected).

(** The effect with dependency [[selectedBreeds]]; it runs after every render
    in which that array is a new object, hence after every call of
    [setSelectedBreeds] below. *)
Definition selectedBreeds_effect (w : World) : World :=
  if (0 <? List.length (selectedBreeds (home w)))%nat
  then fetchImages_start w
  else with_home (setImages []) w.

(** After the first render: [fetchBreeds()] is called and the selection
    effect finds nothing selected. *)
Definition mount : World :=
  selectedBreeds_effect (mkWorld initialHome true [] [breedsUrl]).

Fixpoint remove_one (x : string) (l : list string) : option (list string) :=
  match l with
  | [] => None
  | y :: t => if String.eqb x y then Some t
              else option_map (cons y) (remove_one x t)
  end.

(** Decides whether two arrays hold the same elements with the same
    multiplicities. *)
Fixpoint same_elements (l1 l2 : list string) : bool :=
  match l1 with
  | [] => match l2 with [] => true | _ => false end
  | x :: t => match remove_one x l2 with
              | Some l2' => same_elements t l2'
              | None => false
              end
  end.

Definition remove_nth {A} (i : nat) (l : list A) : list A :=
  firstn i l ++ skipn (S i) l.

(** What can happen next: a promise settles, or the user acts. *)
Inductive event : Type :=
| BreedsSettled (r : fetch_result)                 (* the catalog request *)
| ImagesSettled (i : nat) (rs : list fetch_result) (* the i-th pending batch *)
| Tick (breed : string)                            (* a checkbox of the picker *)
| TypeSearch (value : string)                      (* the search box *)
| ClickRandom (shuffled : list string)             (* "Load Random Breeds" *)
| PickTheme (t : Theme)                            (* a radio item *)
| SwitchNames (checked : bool).                    (* "Always show breed names" *)

(** One event, or [None] when it cannot occur in [w]: a promise settles once,
    a checkbox exists only for a breed the picker shows, a body is something
    [JSON.parse] returns, and shuffling keeps the elements. *)
Definition step (e : event) (w : World) : option World :=
  match e with
  | BreedsSettled r =>
      if breedsPending w && wf_result r
      then Some (mkWorld (fetchBreeds_settle r (home w)) false
                         (imagesPending w) (fetched w))
      else None
  | ImagesSettled i rs =>
      match nth_error (imagesPending w) i with
      | Some selected =>
          if (List.length rs =? List.length selected)%nat && forallb wf_result rs
          then Some (mkWorld (fetchImages_settle selected rs (home w))
                             (breedsPending w)
                             (remove_nth i (imagesPending w)) (fetched w))
          else None
      | None => None
      end
  | Tick breed =>
      if Array_includes (filteredBreeds (breeds (home w)) (searchTerm (home w))) breed
      then Some (selectedBreeds_effect (with_home (handleBreedSelection breed) w))
      else None
  | TypeSearch value => Some (with_home (handleSearch value) w)
  | ClickRandom shuffled =>
      if same_elements (breeds (home w)) shuffled
      then Some (selectedBreeds_effect (with_home (loadRandomBreeds shuffled) w))
      else None
  | PickTheme t => Some (with_home (setTheme (className t)) w)
  | SwitchNames checked => Some (with_home (setShowBreedNames checked) w)
  end.

Fixpoint run (es : list event) (w : World) : option World :=
  match es with
  | [] => Some w
  | e :: t => match step e w with
              | Some w' => run t w'
              | None => None
              end
  end.

Definition reachable (w : World) : Prop := exists es, run es mount = Some w.

(** ** Vocabulary of the statements *)

Definition code_unit_le (a b : string) : Prop := String.leb a b = true.

(** What holds of the catalog and the selection in every state. *)
Definition tidy (w : World) : Prop :=
  NoDup (breeds (home w)) /\
  NoDup (selectedBreeds (home w)) /\
  incl (selectedBreeds (home w)) (breeds (home w)) /\
  (breedsPending w = true -> breeds (home w) = []).

(** A response of the shape the catalog endpoint documents, around the given
    breed-to-sub-breeds mapping. *)
Definition breeds_body (mapping : list (string * json)) : json :=
  JObj [("message", JObj mapping); ("status", JStr "success")].

(** Failure as the specification words it: the network fails, the body is
    malformed, or the status is outside 200-299. *)
Definition spec_fetch_failed (r : fetch_result) : bool :=
  match r with
  | NetworkError => true
  | HttpResponse _ None => true
  | HttpResponse status (Some _) => negb ((200 <=? status) && (status <=? 299))%nat
  end.

(** The settlements on which the [try] block of [fetchBreeds] throws: the
    network fails, the body is not JSON, or the parsed body offers no
    [message] whose keys could be listed. *)
Definition breeds_fetch_fails (r : fetch_result) : bool :=
  match r with
  | NetworkError => true
  | HttpResponse _ None => true
  | HttpResponse _ (Some (JObj props)) =>
      match lookup "message" props with
      | None | Some JNull => true
      | Some _ => false
      end
  | HttpResponse _ (Some _) => true
  end.

Definition entry_akita : list (string * json) := [("akita", JArr [])].

(** Nothing to pick, nothing picked, nothing shown, nothing requested beyond
    the catalog itself. *)
Definition idle (w : World) : Prop :=
  breeds (home w) = [] /\
  selectedBreeds (home w) = [] /\
  images (home w) = [] /\
  imagesPending w = [] /\
  fetched w = [breedsUrl].

(** The URL array a parsed body carries, if it carries one. *)
Definition data_urls (data : json) : option (list json) :=
  match message data with
  | Normal (Some (JArr items)) => Some items
  | _ => None
  end.

(** The URL array one settled request delivers.  [None] covers a network
    failure, a body that is not JSON and a body whose [message] is not an
    array: the three ways one breed can make the batch fail. *)
Definition image_urls (r : fetch_result) : option (list json) :=
  match fetch_json r with
  | Normal data => data_urls data
  | Throw => None
  end.

Definition entries_of (b : string) (urls : list json) : list ImageEntry :=
  map (fun u => mkImage u b) urls.

(** The gallery as the specification describes it: breed by breed, in the
    order of the selection, every URL of the breed paired with its name. *)
Definition gallery (selected : list string) (urls : list (list json))
  : list ImageEntry :=
  List.concat (map (fun p => entries_of (fst p) (snd p)) (combine selected urls)).

(** The two handlers that call [setSelectedBreeds]. *)
Definition mutates_selection (e : event) : bool :=
  match e with
  | Tick _ | ClickRandom _ => true
  | _ => false
  end.

(** The state a fixed run from [mount] ends in, for stating examples. *)
Definition after (es : list event) : World :=
  match run es mount with
  | Some w => w
  | None => mount
  end.

(** A 200 response of the image endpoint carrying the given URLs. *)
Definition images_body (urls : list string) : fetch_result :=
  HttpResponse 200 (Some (JObj [("message", JArr (map JStr urls));
                                ("status", JStr "success")])).

(** The scenario of the specification: a catalog of four breeds, of which
    "beagle" is ticked. *)
Definition four_breeds : fetch_result :=
  HttpResponse 200 (Some (breeds_body
    [("akita", JArr []); ("beagle", JArr []); ("chow", JArr []); ("husky", JArr [])])).

(** Every request of a settling batch delivered a URL array. *)
Definition settles_ok (e : event) : bool :=
  match e with
  | ImagesSettled _ rs =>
      forallb (fun r => match image_urls r with Some _ => true | None => false end) rs
  | _ => true
  end.

(** The selection is changed only while no batch is pending, and no batch
    fails. *)
Definition orderly (e : event) (w : World) : bool :=
  (if mutates_selection e
   then match imagesPending w with [] => true | _ => false end
   else true) && settles_ok e.

Fixpoint run_orderly (es : list event) (w : World) : option World :=
  match es with
  | [] => Some w
  | e :: t => if orderly e w
              then match step e w with
                   | Some w' => run_orderly t w'
                   | None => None
                   end
              else None
  end.

(** Either nothing is pending and the gallery lies within the selection, or
    exactly the batch of the current selection is pending. *)
Definition settled (w : World) : Prop :=
  match imagesPending w with
  | [] => Forall (fun e => In (breed e) (selectedBreeds (home w))) (images (home w))
  | [selected] => selected = selectedBreeds (home w)
  | _ => False
  end.

(** The gallery a selection yields when every request for breed [x]
    delivers the URLs [urls_of x]. *)
Definition gallery_by (urls_of : string -> list json) (selected : list string)
  : list ImageEntry :=
  gallery selected (map urls_of selected).

Definition akita_urls : list string := ["a1.jpg"; "a2.jpg"; "a3.jpg"].
Definition beagle_urls : list string := ["b1.jpg"; "b2.jpg"; "b3.jpg"].

(** Case-insensitive substring match as the specification words it: the
    term, lower-cased, occurs in the name, lower-cased. *)
Definition ci_substring (term name : string) : Prop :=
  exists pre post, toLowerCase name = (pre ++ toLowerCase term ++ post)%string.

(** ** What the component renders *)

(** [a.map((x, index) => f x index)] *)
Fixpoint Array_mapi_from {A B} (f : A -> nat -> B) (index : nat) (a : list A)
  : list B :=
  match a with
  | [] => []
  | x :: t => f x index :: Array_mapi_from f (S index) t
  end.

(** One row of [BreedSelector]: the [key] of the row, the [id] of its
    checkbox (which is also the [htmlFor] of its label), the [checked] prop
    and the text of the label. *)
Record PickerRow : Type := mkRow {
  row_key : string;
  row_id : string;
  row_checked : bool;
  row_label : string
}.

(** The rows [BreedSelector] returns for its props. *)
Definition BreedSelector (breeds selectedBreeds : list string) (searchTerm : string)
  : list PickerRow :=
  map (fun breed => mkRow breed breed (Array_includes selectedBreeds breed) breed)
      (filteredBreeds breeds searchTerm).

(** The picker as [Home] instantiates it. *)
Definition picker (h : Home) : list PickerRow :=
  BreedSelector (breeds h) (selectedBreeds h) (searchTerm h).

(** One tile of the image grid: the [key] and [className] of the container,
    the [src] and [alt] of the image, the text of the caption. *)
Record Tile : Type := mkTile {
  tile_key : nat;
  tile_class : string;
  tile_src : json;
  tile_alt : string;
  tile_caption : string
}.

Definition tileClass (showBreedNames : bool) : string :=
  ("rounded-lg overflow-hidden image-container " ++
   (if showBreedNames then "always-show" else EmptyString))%string.

(** [images.map((image, index) => ...)] in the grid. *)
Definition grid (h : Home) : list Tile :=
  Array_mapi_from
    (fun image index =>
       mkTile index (tileClass (showBreedNames h)) (url image)
              (breed image ++ " dog")%string (breed image))
    0 (images h).

(** [{error && <div className="error-message">{error}</div>}]: [null] and
    the empty string are falsy and render nothing. *)
Definition errorBanner (h : Home) : option string :=
  match error h with
  | Some text => if String.eqb text EmptyString then None else Some text
  | None => None
  end.

(** The [className] of [main], and the one of the "Dog Theme" label. *)
Definition mainClass (h : Home) : string :=
  ("container mx-auto p-4 " ++ theme h)%string.

Definition dogLabelClass (h : Home) : string :=
  if String.eqb (theme h) "dog-theme" then "highlighted" else EmptyString.

(** ** Vocabulary of the further statements *)

(** The value left by the last event for which [f] gives one, [d] if there is
    none. *)
Definition last_of {A} (f : event -> option A) (d : A) (es : list event) : A :=
  fold_left (fun acc e => match f e with Some a => a | None => acc end) es d.

(** The message an event leaves in the error slot, if it is a fetch that
    fails. *)
Definition failure_message (e : event) : option (option string) :=
  match e with
  | BreedsSettled r =>
      if breeds_fetch_fails r then Some (Some "Error fetching breeds") else None
  | ImagesSettled _ _ =>
      if settles_ok e then None else Some (Some "Error fetching images")
  | _ => None
  end.

Definition theme_picked (e : event) : option string :=
  match e with
  | PickTheme t => Some (className t)
  | _ => None
  end.

Definition names_switched (e : event) : option bool :=
  match e with
  | SwitchNames checked => Some checked
  | _ => None
  end.

Definition term_typed (e : event) : option string :=
  match e with
  | TypeSearch value => Some (toLowerCase value)
  | _ => None
  end.

Definition code_unit_lt (a b : string) : Prop := String.ltb a b = true.

(** What holds of the promises, the gallery and the request log in every
    state, beside [tidy]. *)
Definition coherent (w : World) : Prop :=
  Sorted code_unit_le (breeds (home w)) /\
  Forall (fun selected =>
            selected <> [] /\ NoDup selected /\ incl selected (breeds (home w)))
         (imagesPending w) /\
  Forall (fun image => In (breed image) (breeds (home w))) (images (home w)) /\
  (exists requested,
     fetched w = breedsUrl :: map imagesUrl requested /\
     incl requested (breeds (home w))) /\
  (breedsPending w = true ->
     imagesPending w = [] /\ images (home w) = [] /\ fetched w = [breedsUrl]).

(** ** The random sort, sign by sign *)

(** A 200 or other response of the image endpoint carrying the given URLs. *)
Definition images_response (status : nat) (urls : list string) : fetch_result :=
  HttpResponse status (Some (JObj [("message", JArr (map JStr urls));
                                   ("status", JStr "success")])).















(** Any comparison sort, whatever the engine: it either returns an order or
    calls the comparator and goes on according to the sign. *)
Inductive procedure : Type :=
| Return (order : list string)
| Compare (negative positive : procedure).

Fixpoint calls (t : procedure) : nat :=
  match t with
  | Return _ => 0
  | Compare n p => S (Nat.max (calls n) (calls p))
  end.

(** The counterpart of [ways] for a procedure. *)
Fixpoint procedure_ways (P : list string -> bool) (d : nat) (t : procedure)
    {struct t} : nat :=
  match t with
  | Return order => if P (firstn 3 order) then 2 ^ d else 0
  | Compare n p =>
      match d with
      | 0 => 0
      | S k => procedure_ways P k n + procedure_ways P k p
      end
  end.

(** ** Facts about the platform functions *)

Section Platform.

Lemma insert_perm x l : Permutation (insert x l) (x :: l).
Proof.
  induction l as [|y t IH]; simpl.
  - apply Permutation_refl.
  - destruct (String.leb x y).
    + apply Permutation_refl.
    + eapply perm_trans; [apply perm_skip, IH | apply perm_swap].
Qed.

Lemma sort_perm l : Permutation (sort l) l.
Proof.
  induction l as [|x t IH]; simpl.
  - constructor.
  - eapply perm_trans; [apply insert_perm | apply perm_skip, IH].
Qed.

Lemma insert_hd x y l :
  code_unit_le y x -> HdRel code_unit_le y l -> HdRel code_unit_le y (insert x l).
Proof.
  intros Hyx Hl. destruct l as [|z t]; simpl.
  - constructor. exact Hyx.
  - destruct (String.leb x z); constructor; trivial.
    inversion Hl; trivial.
Qed.

Lemma insert_sorted x l : Sorted code_unit_le l -> Sorted code_unit_le (insert x l).
Proof.
  induction 1 as [|y t Ht IH Hhd]; simpl.
  - repeat constructor.
  - destruct (String.leb x y) eqn:E.
    + constructor; [constructor; trivial | constructor; exact E].
    + constructor; [exact IH |].
      apply insert_hd; trivial.
      destruct (String.leb_total x y) as [C|C]; [congruence | exact C].
Qed.

Lemma sort_sorted l : Sorted code_unit_le (sort l).
Proof.
  induction l; simpl; [constructor | apply insert_sorted; assumption].
Qed.

Lemma sort_nil l : sort l = [] <-> l = [].
Proof.
  split; intros H.
  - apply Permutation_nil. rewrite <- H. apply sort_perm.
  - subst. reflexivity.
Qed.

Lemma Array_includes_In prev b : Array_includes prev b = true <-> In b prev.
Proof.
  unfold Array_includes. rewrite existsb_exists. split.
  - intros (x & Hx & E). apply String.eqb_eq in E. subst. exact Hx.
  - intros H. exists b. split; [exact H | apply String.eqb_refl].
Qed.

Lemma Array_includes_not_In prev b : Array_includes prev b = false <-> ~ In b prev.
Proof.
  rewrite <- Array_includes_In. destruct (Array_includes prev b); split; congruence.
Qed.

Lemma distinct_NoDup l : distinct l = true <-> NoDup l.
Proof.
  induction l as [|x t IH]; simpl.
  - split; [constructor | reflexivity].
  - rewrite andb_true_iff, negb_true_iff, IH.
    change (existsb (String.eqb x) t) with (Array_includes t x).
    rewrite Array_includes_not_In. split.
    + intros [H1 H2]. constructor; assumption.
    + intros H. inversion H. split; assumption.
Qed.

Lemma index_key_inj i j : index_key i = index_key j -> i = j.
Proof.
  unfold index_key. intros H.
  apply (f_equal NilEmpty.uint_of_string) in H.
  rewrite !NilEmpty.usu in H.
  injection H as H. apply DecimalNat.Unsigned.to_uint_inj. exact H.
Qed.

Lemma index_keys_NoDup n : NoDup (map index_key (seq 0 n)).
Proof.
  apply Injective_map_NoDup.
  - intros i j. apply index_key_inj.
  - apply seq_NoDup.
Qed.

Lemma remove_one_perm x l l' : remove_one x l = Some l' -> Permutation l (x :: l').
Proof.
  revert l'. induction l as [|y t IH]; simpl; intros l' H; [discriminate|].
  destruct (String.eqb_spec x y) as [->|N].
  - injection H as <-. apply Permutation_refl.
  - destruct (remove_one x t) as [r|]; [|discriminate].
    injection H as <-.
    eapply perm_trans; [apply perm_skip, IH; reflexivity | apply perm_swap].
Qed.

Lemma remove_one_In x l : In x l -> exists l', remove_one x l = Some l'.
Proof.
  induction l as [|y t IH]; simpl; intros H; [contradiction|].
  destruct (String.eqb_spec x y) as [->|N].
  - eexists; reflexivity.
  - destruct H as [H|H]; [congruence|].
    destruct (IH H) as (r & ->). eexists; reflexivity.
Qed.

Lemma same_elements_Permutation l1 l2 :
  same_elements l1 l2 = true <-> Permutation l1 l2.
Proof.
  revert l2. induction l1 as [|x t IH]; intros l2; simpl.
  - destruct l2; split; intros H; try constructor; try discriminate.
    apply Permutation_nil in H. discriminate.
  - split.
    + destruct (remove_one x l2) as [r|] eqn:E; [|discriminate].
      intros H. apply IH in H. apply remove_one_perm in E.
      eapply perm_trans; [apply perm_skip, H | apply Permutation_sym, E].
    + intros H.
      assert (Hin : In x l2) by (eapply Permutation_in; [exact H | left; reflexivity]).
      destruct (remove_one_In _ _ Hin) as (r & E). rewrite E.
      apply IH. apply remove_one_perm in E.
      eapply Permutation_cons_inv. eapply perm_trans; [exact H | exact E].
Qed.

Lemma prefix_append t s :
  String.prefix t s = true <-> exists post, s = (t ++ post)%string.
Proof.
  revert s. induction t as [|a t IH]; intros s; simpl.
  - destruct s; split; intros; trivial; eexists; reflexivity.
  - destruct s as [|b s]; simpl.
    + split; [discriminate | intros (post & H); discriminate].
    + destruct (ascii_dec a b) as [->|N].
      * rewrite IH. split; intros (post & H); exists post.
        -- rewrite H. reflexivity.
        -- injection H as H. exact H.
      * split; [discriminate | intros (post & H); injection H; congruence].
Qed.

Lemma includes_unfold s t :
  includes s t =
  if String.prefix t s then true
  else match s with
       | EmptyString => false
       | String _ s' => includes s' t
       end.
Proof. destruct s; reflexivity. Qed.

(** [includes] finds exactly the contiguous occurrences. *)
Lemma includes_spec s t :
  includes s t = true <-> exists pre post, s = (pre ++ t ++ post)%string.
Proof.
  induction s as [|c s IH].
  - rewrite includes_unfold. destruct (String.prefix t EmptyString) eqn:E.
    + split; trivial. intros _. apply prefix_append in E.
      destruct E as (post & E). exists EmptyString, post. exact E.
    + split; [discriminate|]. intros (pre & post & H).
      destruct pre; simpl in H.
      * assert (String.prefix t EmptyString = true) by (apply prefix_append; eauto). congruence.
      * discriminate.
  - rewrite includes_unfold. destruct (String.prefix t (String c s)) eqn:E.
    + split; trivial. intros _. apply prefix_append in E.
      destruct E as (post & E). exists EmptyString, post. exact E.
    + rewrite IH. split.
      * intros (pre & post & H). exists (String c pre), post. simpl. congruence.
      * intros (pre & post & H). destruct pre as [|c' pre]; simpl in H.
        -- assert (String.prefix t (String c s) = true) by (apply prefix_append; eauto).
           congruence.
        -- injection H as _ H. eauto.
Qed.

End Platform.

(** ** Facts about the handlers *)

Section Handlers.

Lemma toggle_absent b prev : ~ In b prev -> toggle b prev = prev ++ [b].
Proof.
  intros H. unfold toggle.
  apply Array_includes_not_In in H. rewrite H. reflexivity.
Qed.

Lemma toggle_present b prev :
  In b prev -> toggle b prev = filter (fun x => negb (String.eqb x b)) prev.
Proof.
  intros H. unfold toggle.
  apply Array_includes_In in H. rewrite H. reflexivity.
Qed.

Lemma filter_out_absent b l : ~ In b (filter (fun x => negb (String.eqb x b)) l).
Proof.
  rewrite filter_In. intros [_ H]. rewrite String.eqb_refl in H. discriminate.
Qed.

Lemma filter_out_id b l :
  ~ In b l -> filter (fun x => negb (String.eqb x b)) l = l.
Proof.
  induction l as [|x t IH]; simpl; intros H; [reflexivity|].
  destruct (String.eqb_spec x b) as [->|N]; simpl.
  - exfalso. apply H. left. reflexivity.
  - f_equal. apply IH. intros C. apply H. right. exact C.
Qed.

Lemma toggle_NoDup b prev : NoDup prev -> NoDup (toggle b prev).
Proof.
  intros H. destruct (in_dec string_dec b prev) as [Hin|Hout].
  - rewrite toggle_present by exact Hin. apply NoDup_filter, H.
  - rewrite toggle_absent by exact Hout.
    apply NoDup_app; repeat split; trivial.
    + repeat constructor. intros [].
    + intros x Hx [<-|[]]. exact (Hout Hx).
Qed.

Lemma toggle_off_on b prev :
  In b prev ->
  toggle b (toggle b prev) = filter (fun x => negb (String.eqb x b)) prev ++ [b].
Proof.
  intros H. rewrite (toggle_present _ _ H).
  apply toggle_absent, filter_out_absent.
Qed.

Lemma toggle_on_off b prev : ~ In b prev -> toggle b (toggle b prev) = prev.
Proof.
  intros H. rewrite (toggle_absent _ _ H).
  rewrite toggle_present by (apply in_or_app; right; left; reflexivity).
  rewrite filter_app. simpl. rewrite String.eqb_refl. simpl.
  rewrite app_nil_r. apply filter_out_id, H.
Qed.

(** Taking [b] out of a duplicate-free array and putting it at the end keeps
    the elements. *)
Lemma move_last_perm b prev :
  NoDup prev -> In b prev ->
  Permutation (filter (fun x => negb (String.eqb x b)) prev ++ [b]) prev.
Proof.
  induction 1 as [|x t Hx Ht IH]; intros Hin; [contradiction|].
  simpl. destruct (String.eqb_spec x b) as [->|N]; simpl.
  - rewrite filter_out_id by exact Hx.
    apply Permutation_sym, Permutation_cons_append.
  - apply perm_skip, IH. destruct Hin; [congruence | assumption].
Qed.

Lemma toggle_twice_perm b prev :
  NoDup prev -> Permutation (toggle b (toggle b prev)) prev.
Proof.
  intros H. destruct (in_dec string_dec b prev) as [Hin|Hout].
  - rewrite toggle_off_on by exact Hin. apply move_last_perm; assumption.
  - rewrite toggle_on_off by exact Hout. apply Permutation_refl.
Qed.

(** The selection effect touches [images] and the promises, nothing else. *)
Lemma effect_selectedBreeds w :
  selectedBreeds (home (selectedBreeds_effect w)) = selectedBreeds (home w).
Proof. unfold selectedBreeds_effect. destruct (0 <? _)%nat; reflexivity. Qed.

Lemma effect_breeds w : breeds (home (selectedBreeds_effect w)) = breeds (home w).
Proof. unfold selectedBreeds_effect. destruct (0 <? _)%nat; reflexivity. Qed.

Lemma effect_searchTerm w :
  searchTerm (home (selectedBreeds_effect w)) = searchTerm (home w).
Proof. unfold selectedBreeds_effect. destruct (0 <? _)%nat; reflexivity. Qed.

Lemma effect_error w : error (home (selectedBreeds_effect w)) = error (home w).
Proof. unfold selectedBreeds_effect. destruct (0 <? _)%nat; reflexivity. Qed.

Lemma effect_breedsPending w :
  breedsPending (selectedBreeds_effect w) = breedsPending w.
Proof. unfold selectedBreeds_effect. destruct (0 <? _)%nat; reflexivity. Qed.

Lemma effect_empty w :
  selectedBreeds (home w) = [] ->
  selectedBreeds_effect w = with_home (setImages []) w.
Proof. intros H. unfold selectedBreeds_effect. rewrite H. reflexivity. Qed.

Lemma effect_nonempty w :
  selectedBreeds (home w) <> [] ->
  selectedBreeds_effect w = fetchImages_start w.
Proof.
  intros H. unfold selectedBreeds_effect.
  destruct (selectedBreeds (home w)); [contradiction | reflexivity].
Qed.

End Handlers.

(** ** Runs *)

Section Runs.

Lemma run_app es1 es2 w :
  run (es1 ++ es2) w =
  match run es1 w with
  | Some w' => run es2 w'
  | None => None
  end.
Proof.
  revert w. induction es1 as [|e t IH]; intros w; simpl; [reflexivity|].
  destruct (step e w); [apply IH | reflexivity].
Qed.

Lemma reachable_mount : reachable mount.
Proof. exists []. reflexivity. Qed.

Lemma reachable_step e w w' : reachable w -> step e w = Some w' -> reachable w'.
Proof.
  intros (es & H) Hs. exists (es ++ [e]).
  rewrite run_app, H. simpl. rewrite Hs. reflexivity.
Qed.

Lemma run_invariant (P : World -> Prop) :
  (forall e w w', P w -> step e w = Some w' -> P w') ->
  forall es w w', P w -> run es w = Some w' -> P w'.
Proof.
  intros Hstep. induction es as [|e t IH]; simpl; intros w w' Hw H.
  - injection H as <-. exact Hw.
  - destruct (step e w) as [w1|] eqn:E; [|discriminate].
    eapply IH; [eapply Hstep; eassumption | exact H].
Qed.

Lemma reachable_invariant (P : World -> Prop) :
  P mount ->
  (forall e w w', P w -> step e w = Some w' -> P w') ->
  forall w, reachable w -> P w.
Proof.
  intros H0 Hstep w (es & H). eapply run_invariant; eassumption.
Qed.

End Runs.

(** ** The catalog *)

Section Catalog.

Lemma lookup_wf key props v :
  forallb (fun p => wf_json (snd p)) props = true ->
  lookup key props = Some v -> wf_json v = true.
Proof.
  induction props as [|[k x] t IH]; simpl; intros Hwf H; [discriminate|].
  apply andb_true_iff in Hwf. destruct Hwf as [Hx Ht].
  destruct (String.eqb k key).
  - injection H as <-. exact Hx.
  - apply IH; assumption.
Qed.

(** The keys [Object.keys] lists for a parsed value are pairwise different. *)
Lemma Object_keys_NoDup data m keys :
  wf_json data = true -> message data = Normal m ->
  Object_keys m = Normal keys -> NoDup keys.
Proof.
  intros Hwf Hm Hk.
  destruct m as [[| | | s | items | props]|]; simpl in Hk;
    try discriminate; injection Hk as <-.
  - constructor.
  - constructor.
  - apply index_keys_NoDup.
  - apply index_keys_NoDup.
  - destruct data; simpl in Hm; try discriminate; injection Hm as Hm.
    simpl in Hwf. apply andb_true_iff in Hwf. destruct Hwf as [_ Hwf].
    pose proof (lookup_wf _ _ _ Hwf Hm) as Hp. simpl in Hp.
    apply andb_true_iff in Hp. apply distinct_NoDup, Hp.
Qed.

Lemma fetchBreeds_try_NoDup r l :
  wf_result r = true -> fetchBreeds_try r = Normal l -> NoDup l.
Proof.
  unfold fetchBreeds_try. intros Hwf H.
  destruct r as [|status [data|]]; simpl in H; try discriminate.
  destruct (message data) as [m|] eqn:Hm; simpl in H; try discriminate.
  destruct (Object_keys m) as [keys|] eqn:Hk; simpl in H; try discriminate.
  injection H as <-.
  eapply Permutation_NoDup; [apply Permutation_sym, sort_perm |].
  eapply Object_keys_NoDup; eassumption.
Qed.

Lemma filteredBreeds_incl bs term : incl (filteredBreeds bs term) bs.
Proof. intros x H. apply filter_In in H. apply H. Qed.

Lemma toggle_incl b prev x : In x (toggle b prev) -> x = b \/ In x prev.
Proof.
  unfold toggle. destruct (Array_includes prev b); intros H.
  - right. apply filter_In in H. apply H.
  - apply in_app_or in H. destruct H as [H|[H|[]]]; auto.
Qed.

Lemma tidy_step e w w' : tidy w -> step e w = Some w' -> tidy w'.
Proof.
  intros (Hb & Hs & Hi & Hp) H.
  destruct e as [r|i rs|b|value|shuffled|t|checked]; simpl in H.
  - (* BreedsSettled *)
    destruct (breedsPending w) eqn:Ep; simpl in H; [|discriminate].
    destruct (wf_result r) eqn:Ew; [|discriminate]. injection H as <-.
    unfold tidy, fetchBreeds_settle. simpl.
    assert (Hsel : selectedBreeds (home w) = []).
    { specialize (Hp eq_refl). rewrite Hp in Hi.
      destruct (selectedBreeds (home w)) as [|x t]; [reflexivity|].
      destruct (Hi x (or_introl eq_refl)). }
    destruct (fetchBreeds_try r) as [l|] eqn:Et; simpl.
    + rewrite Hsel. repeat split.
      * eapply fetchBreeds_try_NoDup; eassumption.
      * constructor.
      * intros x [].
      * discriminate.
    + repeat split; trivial. discriminate.
  - (* ImagesSettled *)
    destruct (nth_error (imagesPending w) i) as [sel|]; [|discriminate].
    destruct (_ && _); [|discriminate]. injection H as <-.
    unfold tidy, fetchImages_settle. simpl.
    destruct (fetchImages_try sel rs); simpl; auto.
  - (* ticking *)
    destruct (Array_includes _ b) eqn:Ein; [|discriminate]. injection H as <-.
    apply Array_includes_In, filteredBreeds_incl in Ein.
    unfold tidy.
    rewrite effect_selectedBreeds, effect_breeds, effect_breedsPending. simpl.
    repeat split; trivial.
    + apply toggle_NoDup, Hs.
    + intros x Hx. apply toggle_incl in Hx. destruct Hx as [->|Hx]; auto.
  - (* typing *)
    injection H as <-. exact (conj Hb (conj Hs (conj Hi Hp))).
  - (* random button *)
    destruct (same_elements _ shuffled) eqn:Ep; [|discriminate]. injection H as <-.
    apply same_elements_Permutation in Ep.
    unfold tidy.
    rewrite effect_selectedBreeds, effect_breeds, effect_breedsPending. simpl.
    assert (Hn : NoDup shuffled) by (eapply Permutation_NoDup; eassumption).
    repeat split; trivial.
    + rewrite <- (firstn_skipn 3 shuffled) in Hn.
      eapply NoDup_app_remove_r, Hn.
    + intros x Hx. eapply Permutation_in; [apply Permutation_sym, Ep |].
      rewrite <- (firstn_skipn 3 shuffled). apply in_or_app. left. exact Hx.
  - injection H as <-. exact (conj Hb (conj Hs (conj Hi Hp))).
  - injection H as <-. exact (conj Hb (conj Hs (conj Hi Hp))).
Qed.

Lemma tidy_mount : tidy mount.
Proof.
  unfold tidy. simpl. repeat split; try constructor. intros x [].
Qed.

Lemma reachable_tidy w : reachable w -> tidy w.
Proof. apply reachable_invariant; [exact tidy_mount | exact tidy_step]. Qed.

End Catalog.

(** ** Selection order *)

(** C10.  In a selection without duplicates, ticking a breed that is not
    selected puts it at the end; ticking a selected breed removes every
    occurrence and keeps the others in place; ticking a selected breed off
    and on again therefore moves it to the last position.  The result has no
    duplicates, and no reachable state of the component has a selection with
    duplicates (random loading included). *)
Theorem toggle_order_and_uniqueness (prev : list string) (b : string)
    (Hprev : NoDup prev) :
  (forall h, selectedBreeds (handleBreedSelection b h) = toggle b (selectedBreeds h)) /\
  (~ In b prev -> toggle b prev = prev ++ [b]) /\
  (In b prev ->
     toggle b prev = filter (fun x => negb (String.eqb x b)) prev /\
     ~ In b (toggle b prev)) /\
  (In b prev ->
     toggle b (toggle b prev) = filter (fun x => negb (String.eqb x b)) prev ++ [b]) /\
  NoDup (toggle b prev) /\
  (forall w, reachable w -> NoDup (selectedBreeds (home w))).
Proof.
  split; [reflexivity|].
  split; [apply toggle_absent|].
  split.
  { intros Hin. rewrite (toggle_present _ _ Hin).
    split; [reflexivity | apply filter_out_absent]. }
  split; [apply toggle_off_on|].
  split; [apply toggle_NoDup, Hprev|].
  intros w Hw. apply reachable_tidy in Hw. apply Hw.
Qed.

Lemma toggle_order_and_uniqueness_witness :
  NoDup ["akita"; "beagle"] /\
  toggle "akita" (toggle "akita" ["akita"; "beagle"]) = ["beagle"; "akita"].
Proof.
  assert (H : NoDup ["akita"; "beagle"]) by (apply distinct_NoDup; reflexivity).
  split; [exact H|].
  destruct (toggle_order_and_uniqueness ["akita"; "beagle"] "akita" H) as (_ & _ & _ & Hmove & _).
  apply Hmove. simpl. auto.
Defined.

(** ** Loading the catalog *)

(** C8, refuted as stated: a 200 response whose mapping is the empty object
    is a success (the [try] block completes and no error is set) and the
    catalog it yields is empty. *)
Lemma empty_mapping_gives_empty_catalog :
  wf_result (HttpResponse 200 (Some (breeds_body []))) = true /\
  fetchBreeds_try (HttpResponse 200 (Some (breeds_body []))) = Normal [] /\
  option_map (fun w => (breeds (home w), error (home w)))
             (step (BreedsSettled (HttpResponse 200 (Some (breeds_body [])))) mount)
  = Some ([], None).
Proof. repeat split. Qed.

(** C8, amended.  When the body of the catalog response parses and its
    [message] is an object, [fetchBreeds] stores the keys of that object
    sorted ascending by code units: the catalog is ordered, holds exactly
    those keys, each once, and no error is recorded.  It is empty exactly
    when the object has no key. *)
Theorem catalog_is_sorted_keys (w : World) (status : nat) (data : json)
    (mapping : list (string * json))
    (Hpending : breedsPending w = true)
    (Hwf : wf_json data = true)
    (Hmsg : message data = Normal (Some (JObj mapping))) :
  exists w',
    step (BreedsSettled (HttpResponse status (Some data))) w = Some w' /\
    breeds (home w') = sort (map fst mapping) /\
    Sorted code_unit_le (breeds (home w')) /\
    Permutation (breeds (home w')) (map fst mapping) /\
    NoDup (breeds (home w')) /\
    error (home w') = error (home w) /\
    (breeds (home w') = [] <-> mapping = []).
Proof.
  assert (Htry : fetchBreeds_try (HttpResponse status (Some data))
                 = Normal (sort (map fst mapping))).
  { unfold fetchBreeds_try. simpl. rewrite Hmsg. reflexivity. }
  eexists. split.
  { simpl. rewrite Hpending, Hwf. simpl. reflexivity. }
  unfold fetchBreeds_settle. rewrite Htry. simpl.
  split; [reflexivity|].
  split; [apply sort_sorted|].
  split; [apply sort_perm|].
  split; [eapply fetchBreeds_try_NoDup; [|exact Htry]; exact Hwf|].
  split; [reflexivity|].
  rewrite sort_nil. split; intros H.
  - destruct mapping; [reflexivity | discriminate].
  - subst. reflexivity.
Qed.

Lemma catalog_is_sorted_keys_witness :
  exists w',
    step (BreedsSettled (HttpResponse 200 (Some (breeds_body
            [("labrador", JArr []); ("affenpinscher", JArr [])])))) mount = Some w' /\
    breeds (home w') = ["affenpinscher"; "labrador"].
Proof.
  destruct (@catalog_is_sorted_keys mount 200
              (breeds_body [("labrador", JArr []); ("affenpinscher", JArr [])])
              [("labrador", JArr []); ("affenpinscher", JArr [])]
              eq_refl eq_refl eq_refl) as (w' & Hstep & Hbreeds & _).
  exists w'. split; [exact Hstep | exact Hbreeds].
Defined.

(** ** A catalog load that fails *)

(** C9, refuted as stated: a response with status 500 whose body is a
    well-formed mapping counts as a failed fetch in the specification, yet
    the component never looks at the status; it fills the catalog, records
    no error, shows the breed in the picker and fetches its images as soon
    as it is ticked. *)
Lemma status_500_is_not_a_failure :
  spec_fetch_failed (HttpResponse 500 (Some (breeds_body entry_akita))) = true /\
  option_map
    (fun w => (breeds (home w), error (home w),
               filteredBreeds (breeds (home w)) (searchTerm (home w)), fetched w))
    (run [BreedsSettled (HttpResponse 500 (Some (breeds_body entry_akita)));
          Tick "akita"] mount)
  = Some (["akita"], None, ["akita"],
          [breedsUrl; "https://dog.ceo/api/breed/akita/images/random/3"]).
Proof. split; reflexivity. Qed.

Section CatalogFailure.

Lemma breeds_fetch_fails_throws r :
  breeds_fetch_fails r = true <-> fetchBreeds_try r = Throw.
Proof.
  unfold fetchBreeds_try.
  destruct r as [|status [data|]]; simpl; try (split; reflexivity).
  destruct data as [| | | | |props]; simpl; try (split; reflexivity).
  destruct (lookup "message" props) as [[| | | | |]|]; simpl;
    split; intros; try reflexivity; discriminate.
Qed.

Lemma same_elements_nil l : same_elements [] l = true -> l = [].
Proof. destruct l; [reflexivity | discriminate]. Qed.

(** With an empty catalog every event but the settling of the catalog fetch
    leaves the component idle and its error slot alone. *)
Lemma idle_step e w w' :
  idle w -> step e w = Some w' ->
  (forall r, e <> BreedsSettled r) ->
  idle w' /\ error (home w') = error (home w) /\ breedsPending w' = breedsPending w.
Proof.
  intros (Hb & Hs & Hi & Hp & Hf) H Hne.
  destruct e as [r|i rs|b|value|shuffled|t|checked]; simpl in H.
  - exfalso. exact (Hne r eq_refl).
  - rewrite Hp in H. destruct i; discriminate.
  - rewrite Hb in H. discriminate.
  - injection H as <-. unfold idle. simpl. repeat split; trivial.
  - rewrite Hb in H.
    destruct (same_elements [] shuffled) eqn:E; [|discriminate].
    apply same_elements_nil in E. subst shuffled. injection H as <-.
    unfold idle. rewrite effect_breeds, effect_selectedBreeds, effect_error,
      effect_breedsPending.
    rewrite effect_empty by reflexivity. simpl. repeat split; trivial.
  - injection H as <-. unfold idle. simpl. repeat split; trivial.
  - injection H as <-. unfold idle. simpl. repeat split; trivial.
Qed.

Lemma idle_mount : idle mount.
Proof. unfold idle. simpl. repeat split. Qed.

(** A promise settles once: the catalog fetch never becomes pending again. *)
Lemma settled_stays es w w' :
  breedsPending w = false -> run es w = Some w' -> breedsPending w' = false.
Proof.
  apply (run_invariant (fun x => breedsPending x = false)).
  intros e x x' Hx Hstep.
  destruct e as [r|i rs|b|value|shuffled|t|checked]; simpl in Hstep.
  - rewrite Hx in Hstep. discriminate.
  - destruct (nth_error _ _); [|discriminate].
    destruct (_ && _); [|discriminate]. injection Hstep as <-. exact Hx.
  - destruct (Array_includes _ _); [|discriminate]. injection Hstep as <-.
    rewrite effect_breedsPending. exact Hx.
  - injection Hstep as <-. exact Hx.
  - destruct (same_elements _ _); [|discriminate]. injection Hstep as <-.
    rewrite effect_breedsPending. exact Hx.
  - injection Hstep as <-. exact Hx.
  - injection Hstep as <-. exact Hx.
Qed.

Lemma before_catalog es : forall w w',
  idle w -> run es w = Some w' -> breedsPending w' = true ->
  idle w' /\ error (home w') = error (home w).
Proof.
  induction es as [|e t IH]; simpl; intros w w' Hi H Hp'.
  - injection H as <-. auto.
  - destruct (step e w) as [w1|] eqn:E; [|discriminate].
    destruct e as [r|i rs|b|value|shuffled|th|checked];
      try (destruct (idle_step _ _ _ Hi E ltac:(discriminate)) as (Hi1 & He1 & Hp1);
           rewrite <- He1; apply IH; trivial).
    exfalso. simpl in E.
    destruct (breedsPending w && wf_result r); [|discriminate]. injection E as <-.
    assert (Hf : breedsPending w' = false)
      by (eapply settled_stays; [|exact H]; reflexivity).
    congruence.
Qed.

Lemma after_failed_catalog es : forall w w',
  idle w -> breedsPending w = false -> run es w = Some w' ->
  idle w' /\ error (home w') = error (home w) /\ breedsPending w' = false.
Proof.
  induction es as [|e t IH]; simpl; intros w w' Hi Hp H.
  - injection H as <-. auto.
  - destruct (step e w) as [w1|] eqn:E; [|discriminate].
    assert (Hne : forall r, e <> BreedsSettled r).
    { intros r ->. simpl in E. rewrite Hp in E. discriminate. }
    destruct (idle_step _ _ _ Hi E Hne) as (Hi1 & He1 & Hp1).
    rewrite <- He1. apply IH; trivial. congruence.
Qed.

End CatalogFailure.

(** C9, amended.  In every run in which the catalog fetch settles by a
    network failure, by a body that is not JSON, or by a parsed body without
    a [message] to list keys of (whatever the status), the error slot reads
    "Error fetching breeds" from then on, the catalog stays empty, the picker
    shows no entry, nothing is selected or displayed, no image request is
    ever passed to [fetch], and the search box, the random button and the
    settings keep working. *)
Theorem failed_catalog_leaves_picker_empty (es1 es2 : list event)
    (r : fetch_result) (w : World)
    (Hfail : breeds_fetch_fails r = true)
    (Hrun : run (es1 ++ BreedsSettled r :: es2) mount = Some w) :
  error (home w) = Some "Error fetching breeds" /\
  breeds (home w) = [] /\
  filteredBreeds (breeds (home w)) (searchTerm (home w)) = [] /\
  selectedBreeds (home w) = [] /\
  images (home w) = [] /\
  imagesPending w = [] /\
  fetched w = [breedsUrl] /\
  (forall b, step (Tick b) w = None) /\
  (forall value, step (TypeSearch value) w <> None) /\
  step (ClickRandom []) w <> None /\
  (forall t, step (PickTheme t) w <> None) /\
  (forall checked, step (SwitchNames checked) w <> None).
Proof.
  rewrite run_app in Hrun.
  destruct (run es1 mount) as [w1|] eqn:E1; [|discriminate].
  simpl in Hrun.
  destruct (breedsPending w1) eqn:Ep; simpl in Hrun; [|discriminate].
  destruct (wf_result r); [|discriminate].
  destruct (before_catalog es1 _ _ idle_mount E1 Ep) as ((Hb & Hs & Hi & Hp & Hf) & He).
  apply breeds_fetch_fails_throws in Hfail.
  unfold fetchBreeds_settle in Hrun. rewrite Hfail in Hrun.
  apply after_failed_catalog in Hrun;
    [| unfold idle; simpl; repeat split; assumption | reflexivity].
  destruct Hrun as ((Hb' & Hs' & Hi' & Hp' & Hf') & He' & _).
  simpl in He'.
  repeat split; trivial.
  - rewrite Hb'. reflexivity.
  - intros b. simpl. rewrite Hb'. reflexivity.
  - discriminate.
  - simpl. rewrite Hb'. discriminate.
  - discriminate.
  - discriminate.
Qed.

Lemma failed_catalog_leaves_picker_empty_witness :
  exists w,
    run ([TypeSearch "Lab"] ++ BreedsSettled NetworkError :: [ClickRandom []]) mount
    = Some w /\
    error (home w) = Some "Error fetching breeds" /\
    breeds (home w) = [] /\
    fetched w = [breedsUrl].
Proof.
  eexists. split; [reflexivity|].
  destruct (@failed_catalog_leaves_picker_empty
              [TypeSearch "Lab"] [ClickRandom []] NetworkError _ eq_refl eq_refl)
    as (He & Hb & _ & _ & _ & _ & Hf & _).
  repeat split; assumption.
Defined.

(** ** Settling the image requests *)

Section Images.

Lemma per_result_ok selected data i us :
  data_urls data = Some us ->
  per_result selected data i = Normal (entries_of (nth i selected EmptyString) us).
Proof.
  unfold data_urls, per_result. intros H.
  destruct (message data) as [[[]|]|]; try discriminate.
  injection H as <-. reflexivity.
Qed.

Lemma per_result_fail selected data i :
  data_urls data = None -> per_result selected data i = Throw.
Proof.
  unfold data_urls, per_result. intros H.
  destruct (message data) as [[[]|]|]; try discriminate; reflexivity.
Qed.

Lemma flatMap_from_ok datas : forall pre selected urls,
  List.length datas = List.length selected ->
  map data_urls datas = map Some urls ->
  flatMap_from (per_result (pre ++ selected)) (List.length pre) datas
  = Normal (gallery selected urls).
Proof.
  induction datas as [|d t IH]; intros pre selected urls Hlen Hmap.
  - destruct selected; [|discriminate]. reflexivity.
  - destruct selected as [|b rest]; [discriminate|].
    destruct urls as [|us urls]; [discriminate|].
    simpl in Hlen, Hmap. injection Hlen as Hlen. injection Hmap as Hd Hmap.
    simpl. erewrite per_result_ok by exact Hd. simpl.
    rewrite nth_middle.
    replace (pre ++ b :: rest) with ((pre ++ [b]) ++ rest)
      by (rewrite <- app_assoc; reflexivity).
    replace (S (List.length pre)) with (List.length (pre ++ [b]))
      by (rewrite length_app; simpl; lia).
    rewrite (IH (pre ++ [b]) rest urls Hlen Hmap). reflexivity.
Qed.

Lemma flatMap_from_fail selected datas : forall k,
  (exists d, In d datas /\ data_urls d = None) ->
  flatMap_from (per_result selected) k datas = Throw.
Proof.
  induction datas as [|d t IH]; intros k (x & Hin & Hx); [contradiction|].
  simpl. destruct Hin as [->|Hin].
  - rewrite per_result_fail by exact Hx. reflexivity.
  - destruct (per_result selected d k); [|reflexivity]. simpl.
    rewrite IH by eauto. reflexivity.
Qed.

Lemma sequence_normal rs datas :
  sequence (map fetch_json rs) = Normal datas ->
  map fetch_json rs = map Normal datas.
Proof.
  revert datas. induction rs as [|r t IH]; simpl; intros datas H.
  - injection H as <-. reflexivity.
  - destruct (fetch_json r) as [d|]; simpl in H; [|discriminate].
    destruct (sequence (map fetch_json t)) as [ds|]; simpl in H; [|discriminate].
    injection H as <-. simpl. f_equal. apply IH. reflexivity.
Qed.

Lemma sequence_ok rs : forall urls,
  map image_urls rs = map Some urls ->
  exists datas,
    sequence (map fetch_json rs) = Normal datas /\
    map data_urls datas = map Some urls /\
    List.length datas = List.length rs.
Proof.
  induction rs as [|r t IH]; intros urls H.
  - destruct urls; [|discriminate]. exists []. repeat split.
  - destruct urls as [|us urls]; [discriminate|].
    simpl in H. injection H as Hr Ht.
    destruct (IH urls Ht) as (ds & Hseq & Hmap & Hlen).
    unfold image_urls in Hr.
    destruct (fetch_json r) as [d|] eqn:Ef; [|discriminate].
    exists (d :: ds). simpl. rewrite Ef, Hseq. simpl.
    repeat split; [rewrite Hr, Hmap; reflexivity | rewrite Hlen; reflexivity].
Qed.

(** All requests of a batch succeed: the gallery is the concatenation. *)
Lemma fetchImages_try_ok selected rs urls :
  List.length rs = List.length selected ->
  map image_urls rs = map Some urls ->
  fetchImages_try selected rs = Normal (gallery selected urls).
Proof.
  intros Hlen Hmap. unfold fetchImages_try, allImages, flatMap.
  destruct (sequence_ok rs urls Hmap) as (ds & Hseq & Hds & Hl).
  rewrite Hseq. simpl.
  apply (@flatMap_from_ok ds [] selected urls); [congruence | exact Hds].
Qed.

(** One request of a batch fails: the whole [try] block throws. *)
Lemma fetchImages_try_fail selected rs :
  (exists r, In r rs /\ image_urls r = None) ->
  fetchImages_try selected rs = Throw.
Proof.
  intros (r & Hin & Hr). unfold fetchImages_try.
  destruct (sequence (map fetch_json rs)) as [ds|] eqn:Hseq; [|reflexivity].
  simpl. apply flatMap_from_fail.
  apply sequence_normal in Hseq.
  apply (in_map fetch_json) in Hin. rewrite Hseq in Hin.
  apply in_map_iff in Hin. destruct Hin as (d & Hd & Hin).
  exists d. split; [exact Hin|].
  unfold image_urls in Hr. rewrite <- Hd in Hr. exact Hr.
Qed.

Lemma success_or_failure rs :
  (exists urls, map image_urls rs = map Some urls) \/
  (exists r, In r rs /\ image_urls r = None).
Proof.
  induction rs as [|r t [(urls & H)|(x & Hin & Hx)]].
  - left. exists []. reflexivity.
  - destruct (image_urls r) as [us|] eqn:E.
    + left. exists (us :: urls). simpl. rewrite E, H. reflexivity.
    + right. exists r. split; [left; reflexivity | exact E].
  - right. exists x. split; [right; exact Hin | exact Hx].
Qed.

Lemma gallery_breeds selected urls :
  Forall (fun e => In (breed e) selected) (gallery selected urls).
Proof.
  unfold gallery. apply Forall_forall. intros e He.
  apply in_concat in He. destruct He as (l & Hl & He).
  apply in_map_iff in Hl. destruct Hl as ([b us] & <- & Hp).
  apply in_combine_l in Hp. simpl in He.
  apply in_map_iff in He. destruct He as (u & <- & _). exact Hp.
Qed.

Lemma gallery_length selected urls :
  List.length urls = List.length selected ->
  Forall (fun us => List.length us = 3) urls ->
  List.length (gallery selected urls) = 3 * List.length selected.
Proof.
  unfold gallery. revert urls.
  induction selected as [|b t IH]; intros urls Hlen Hall.
  - reflexivity.
  - destruct urls as [|us urls]; [discriminate|].
    inversion Hall as [|? ? Hus Hrest]; subst.
    simpl. rewrite length_app. unfold entries_of at 1. rewrite length_map, Hus.
    simpl in Hlen. injection Hlen as Hlen.
    rewrite (IH urls Hlen Hrest). simpl. lia.
Qed.

(** Whatever a batch commits, it built from its own selection. *)
Lemma fetchImages_try_breeds selected rs all :
  List.length rs = List.length selected ->
  fetchImages_try selected rs = Normal all ->
  Forall (fun e => In (breed e) selected) all.
Proof.
  intros Hlen H.
  destruct (success_or_failure rs) as [(urls & Hu)|Hf].
  - erewrite fetchImages_try_ok in H by eassumption. injection H as <-.
    apply gallery_breeds.
  - rewrite fetchImages_try_fail in H by exact Hf. discriminate.
Qed.

End Images.

(** ** Recomputing the gallery *)

Section Recompute.

Lemma remove_nth_middle {A} (pre : list A) x post :
  remove_nth (List.length pre) (pre ++ x :: post) = pre ++ post.
Proof.
  unfold remove_nth. induction pre as [|y t IH]; simpl.
  - reflexivity.
  - f_equal. exact IH.
Qed.

Lemma nth_error_middle {A} (pre : list A) x post :
  nth_error (pre ++ x :: post) (List.length pre) = Some x.
Proof. induction pre as [|y t IH]; simpl; [reflexivity | exact IH]. Qed.

Lemma mutation_runs_effect e w w1 :
  mutates_selection e = true -> step e w = Some w1 ->
  exists h, w1 = selectedBreeds_effect
                   (mkWorld h (breedsPending w) (imagesPending w) (fetched w)) /\
            images h = images (home w).
Proof.
  intros Hm H. destruct e as [r|i rs|b|value|shuffled|t|checked];
    try discriminate; simpl in H.
  - destruct (Array_includes _ _); [|discriminate]. injection H as <-.
    eexists. split; reflexivity.
  - destruct (same_elements _ _); [|discriminate]. injection H as <-.
    eexists. split; reflexivity.
Qed.

(** A mutation that leaves breeds selected issues one request per breed, in
    order, and queues one invocation. *)
Lemma mutation_issues e w w1 :
  mutates_selection e = true -> step e w = Some w1 ->
  selectedBreeds (home w1) <> [] ->
  imagesPending w1 = imagesPending w ++ [selectedBreeds (home w1)] /\
  fetched w1 = fetched w ++ map imagesUrl (selectedBreeds (home w1)) /\
  images (home w1) = images (home w).
Proof.
  intros Hm H Hne. destruct (mutation_runs_effect _ _ _ Hm H) as (h & -> & Hi).
  rewrite effect_selectedBreeds in *.
  rewrite effect_nonempty by exact Hne. simpl. auto.
Qed.

(** A mutation that leaves nothing selected clears the gallery on the spot
    and requests nothing. *)
Lemma mutation_clears e w w1 :
  mutates_selection e = true -> step e w = Some w1 ->
  selectedBreeds (home w1) = [] ->
  images (home w1) = [] /\
  fetched w1 = fetched w /\
  imagesPending w1 = imagesPending w.
Proof.
  intros Hm H He. destruct (mutation_runs_effect _ _ _ Hm H) as (h & -> & Hi).
  rewrite effect_selectedBreeds in *.
  rewrite effect_empty by exact He. simpl. auto.
Qed.

(** A batch whose requests all succeed commits its gallery, whatever the
    component holds at that moment. *)
Lemma settle_commits w i selected rs urls :
  nth_error (imagesPending w) i = Some selected ->
  List.length rs = List.length selected ->
  forallb wf_result rs = true ->
  map image_urls rs = map Some urls ->
  exists w',
    step (ImagesSettled i rs) w = Some w' /\
    images (home w') = gallery selected urls /\
    imagesPending w' = remove_nth i (imagesPending w) /\
    selectedBreeds (home w') = selectedBreeds (home w) /\
    error (home w') = error (home w) /\
    fetched w' = fetched w.
Proof.
  intros Hn Hlen Hwf Hok. eexists. split.
  - simpl. rewrite Hn, Hwf. apply Nat.eqb_eq in Hlen. rewrite Hlen. reflexivity.
  - unfold fetchImages_settle.
    rewrite (fetchImages_try_ok _ _ _ Hlen Hok). simpl. auto 6.
Qed.

(** Whatever the interleaving, the gallery on display was written by one
    batch alone (or is empty): [setImages] only ever receives the result of
    one [flatMap], or the empty array. *)
Lemma gallery_of_one_batch w :
  reachable w ->
  exists selected urls,
    List.length urls = List.length selected /\
    images (home w) = gallery selected urls.
Proof.
  revert w.
  apply (reachable_invariant
           (fun w => exists selected urls,
                       List.length urls = List.length selected /\
                       images (home w) = gallery selected urls)).
  - exists [], []. split; reflexivity.
  - intros e w w' (selected & urls & Hl & Hg) H.
    destruct e as [r|i rs|b|value|shuffled|t|checked].
    + simpl in H. destruct (_ && _); [|discriminate]. injection H as <-.
      exists selected, urls. split; [exact Hl|].
      unfold fetchBreeds_settle. simpl.
      destruct (fetchBreeds_try r); exact Hg.
    + simpl in H.
      destruct (nth_error (imagesPending w) i) as [sel|]; [|discriminate].
      destruct (_ =? _)%nat eqn:El; [|discriminate].
      destruct (forallb wf_result rs); [|discriminate]. injection H as <-.
      apply Nat.eqb_eq in El. unfold fetchImages_settle. simpl.
      destruct (success_or_failure rs) as [(us & Hu)|Hf].
      * rewrite (fetchImages_try_ok _ _ _ El Hu). simpl.
        exists sel, us. split; [|reflexivity].
        apply (f_equal (@List.length _)) in Hu. rewrite !length_map in Hu.
        congruence.
      * rewrite (fetchImages_try_fail sel rs Hf). simpl.
        exists selected, urls. split; assumption.
    + destruct (mutation_runs_effect (Tick b) w w' eq_refl H) as (h & -> & Hi).
      unfold selectedBreeds_effect. destruct (0 <? _)%nat; simpl.
      * exists selected, urls. split; [exact Hl | congruence].
      * exists [], []. split; reflexivity.
    + injection H as <-. exists selected, urls. split; assumption.
    + destruct (mutation_runs_effect (ClickRandom shuffled) w w' eq_refl H)
        as (h & -> & Hi).
      unfold selectedBreeds_effect. destruct (0 <? _)%nat; simpl.
      * exists selected, urls. split; [exact Hl | congruence].
      * exists [], []. split; reflexivity.
    + injection H as <-. exists selected, urls. split; assumption.
    + injection H as <-. exists selected, urls. split; assumption.
Qed.

End Recompute.

(** C1.  After a change of the selection that leaves breeds selected, one
    request per selected breed is issued in the order of the selection, and
    when all of them succeed the gallery is the concatenation, in that
    order, of each breed's URLs paired with the breed: three entries per
    breed when every response carries three URLs.  After a change that
    leaves nothing selected the gallery is empty at once and nothing is
    requested. *)
Theorem recompute_gallery (w w1 : World) (e : event)
    (Hmut : mutates_selection e = true)
    (Hstep : step e w = Some w1) :
  (selectedBreeds (home w1) = [] ->
     images (home w1) = [] /\
     fetched w1 = fetched w /\
     imagesPending w1 = imagesPending w) /\
  (selectedBreeds (home w1) <> [] ->
     fetched w1 = fetched w ++ map imagesUrl (selectedBreeds (home w1)) /\
     imagesPending w1 = imagesPending w ++ [selectedBreeds (home w1)]) /\
  (forall w' i rs urls,
     nth_error (imagesPending w') i = Some (selectedBreeds (home w1)) ->
     List.length rs = List.length (selectedBreeds (home w1)) ->
     forallb wf_result rs = true ->
     map image_urls rs = map Some urls ->
     exists w2,
       step (ImagesSettled i rs) w' = Some w2 /\
       images (home w2) = gallery (selectedBreeds (home w1)) urls /\
       (Forall (fun us => List.length us = 3) urls ->
        List.length (images (home w2)) = 3 * List.length (selectedBreeds (home w1)))).
Proof.
  split; [apply (mutation_clears _ _ _ Hmut Hstep)|].
  split.
  { intros Hne. destruct (mutation_issues _ _ _ Hmut Hstep Hne) as (Hp & Hf & _).
    split; assumption. }
  intros w' i rs urls Hn Hlen Hwf Hok.
  destruct (settle_commits _ _ _ _ _ Hn Hlen Hwf Hok) as (w2 & Hs & Hi & _).
  exists w2. split; [exact Hs|]. split; [exact Hi|].
  intros H3. rewrite Hi. apply gallery_length; [|exact H3].
  apply (f_equal (@List.length _)) in Hok. rewrite !length_map in Hok. congruence.
Qed.

Lemma recompute_gallery_witness :
  exists w2,
    step (ImagesSettled 0 [images_body ["b1.jpg"; "b2.jpg"; "b3.jpg"]])
         (after [BreedsSettled four_breeds; Tick "beagle"]) = Some w2 /\
    images (home w2) = [mkImage (JStr "b1.jpg") "beagle";
                        mkImage (JStr "b2.jpg") "beagle";
                        mkImage (JStr "b3.jpg") "beagle"] /\
    fetched (after [BreedsSettled four_breeds; Tick "beagle"])
    = [breedsUrl; "https://dog.ceo/api/breed/beagle/images/random/3"].
Proof.
  destruct (recompute_gallery
              (after [BreedsSettled four_breeds])
              (after [BreedsSettled four_breeds; Tick "beagle"])
              (Tick "beagle") eq_refl eq_refl) as (_ & Hissue & Hsettle).
  destruct (Hsettle (after [BreedsSettled four_breeds; Tick "beagle"]) 0
              [images_body ["b1.jpg"; "b2.jpg"; "b3.jpg"]]
              [[JStr "b1.jpg"; JStr "b2.jpg"; JStr "b3.jpg"]]
              eq_refl eq_refl eq_refl eq_refl) as (w2 & Hs & Hi & _).
  exists w2. split; [exact Hs|]. split; [exact Hi|].
  destruct Hissue as (Hf & _); [discriminate | exact Hf].
Defined.

(** C3, refuted as stated: with "akita" on display, "beagle" is ticked and
    the request for "akita" comes back with status 500, a failed fetch in
    the words of the specification, while its body carries three URLs.
    [fetchImages] never reads the status: the batch is committed, the
    gallery changes and no error is recorded. *)
Lemma status_500_batch_is_committed :
  spec_fetch_failed (images_response 500 ["a4.jpg"; "a5.jpg"; "a6.jpg"]) = true /\
  exists before committed,
    run [BreedsSettled four_breeds;
         Tick "akita";
         ImagesSettled 0 [images_body akita_urls];
         Tick "beagle"] mount = Some before /\
    step (ImagesSettled 0 [images_response 500 ["a4.jpg"; "a5.jpg"; "a6.jpg"];
                           images_body beagle_urls]) before = Some committed /\
    images (home before) = gallery ["akita"] [map JStr akita_urls] /\
    images (home committed)
    = gallery ["akita"; "beagle"]
              [[JStr "a4.jpg"; JStr "a5.jpg"; JStr "a6.jpg"]; map JStr beagle_urls] /\
    images (home committed) <> images (home before) /\
    error (home committed) = None.
Proof.
  split; [reflexivity|].
  eexists. eexists. split; [reflexivity|]. split; [reflexivity|].
  repeat split. discriminate.
Qed.

(** C3, amended.  A per-breed fetch fails, as far as the code can tell, when
    the network fails, when the body is not JSON, or when the parsed body
    holds no URL array under [message]; the status plays no part.  For a
    recompute in which at least one fetch fails in one of these ways the
    update is aborted as a whole: issuing the recompute leaves the gallery
    as it was, and when the batch settles (right away or in any later state
    in which it is still pending) the gallery is left as it is, neither
    cleared nor partly filled, the selection is untouched, and the error
    slot reads "Error fetching images". *)
Theorem failed_batch_keeps_gallery (w0 w1 : World) (e : event)
    (rs : list fetch_result)
    (Hmut : mutates_selection e = true)
    (Hstep : step e w0 = Some w1)
    (Hne : selectedBreeds (home w1) <> [])
    (Hlen : List.length rs = List.length (selectedBreeds (home w1)))
    (Hwf : forallb wf_result rs = true)
    (Hfail : exists r, In r rs /\ image_urls r = None) :
  image_urls NetworkError = None /\
  (forall status, image_urls (HttpResponse status None) = None) /\
  (forall status data,
     data_urls data = None -> image_urls (HttpResponse status (Some data)) = None) /\
  (forall status status' body,
     image_urls (HttpResponse status body) = image_urls (HttpResponse status' body)) /\
  images (home w1) = images (home w0) /\
  (exists w2,
     step (ImagesSettled (List.length (imagesPending w0)) rs) w1 = Some w2 /\
     images (home w2) = images (home w0) /\
     error (home w2) = Some "Error fetching images" /\
     selectedBreeds (home w2) = selectedBreeds (home w1)) /\
  (forall w i,
     nth_error (imagesPending w) i = Some (selectedBreeds (home w1)) ->
     exists w',
       step (ImagesSettled i rs) w = Some w' /\
       images (home w') = images (home w) /\
       error (home w') = Some "Error fetching images" /\
       selectedBreeds (home w') = selectedBreeds (home w) /\
       breeds (home w') = breeds (home w)).
Proof.
  assert (Hsettle : forall w i,
            nth_error (imagesPending w) i = Some (selectedBreeds (home w1)) ->
            exists w',
              step (ImagesSettled i rs) w = Some w' /\
              images (home w') = images (home w) /\
              error (home w') = Some "Error fetching images" /\
              selectedBreeds (home w') = selectedBreeds (home w) /\
              breeds (home w') = breeds (home w)).
  { intros w i Hpending. eexists. split.
    - simpl. rewrite Hpending, Hwf. apply Nat.eqb_eq in Hlen. rewrite Hlen.
      reflexivity.
    - unfold fetchImages_settle.
      rewrite (fetchImages_try_fail (selectedBreeds (home w1)) rs Hfail).
      simpl. auto. }
  destruct (mutation_issues e w0 w1 Hmut Hstep Hne) as (Hpend & _ & Himg).
  split; [reflexivity|]. split; [reflexivity|].
  split; [intros status data Hd; exact Hd|].
  split; [reflexivity|].
  split; [exact Himg|]. split; [|exact Hsettle].
  destruct (Hsettle w1 (List.length (imagesPending w0))) as (w2 & Hs & Hi & He & Hsel & _).
  { rewrite Hpend. apply nth_error_middle. }
  exists w2. split; [exact Hs|]. split; [congruence|]. split; assumption.
Qed.

Lemma failed_batch_keeps_gallery_witness :
  exists w2,
    step (ImagesSettled 0 [images_body ["a4.jpg"; "a5.jpg"; "a6.jpg"]; NetworkError])
         (after [BreedsSettled four_breeds; Tick "akita";
                 ImagesSettled 0 [images_body ["a1.jpg"; "a2.jpg"; "a3.jpg"]];
                 Tick "beagle"]) = Some w2 /\
    images (home w2) = [mkImage (JStr "a1.jpg") "akita";
                        mkImage (JStr "a2.jpg") "akita";
                        mkImage (JStr "a3.jpg") "akita"] /\
    error (home w2) = Some "Error fetching images".
Proof.
  destruct (failed_batch_keeps_gallery
              (after [BreedsSettled four_breeds; Tick "akita";
                      ImagesSettled 0 [images_body ["a1.jpg"; "a2.jpg"; "a3.jpg"]]])
              (after [BreedsSettled four_breeds; Tick "akita";
                      ImagesSettled 0 [images_body ["a1.jpg"; "a2.jpg"; "a3.jpg"]];
                      Tick "beagle"])
              (Tick "beagle")
              [images_body ["a4.jpg"; "a5.jpg"; "a6.jpg"]; NetworkError]
              eq_refl eq_refl ltac:(discriminate) eq_refl eq_refl
              (ex_intro _ NetworkError (conj (or_intror (or_introl eq_refl)) eq_refl)))
    as (_ & _ & _ & _ & _ & (w2 & Hs & Hi & He & _) & _).
  exists w2. split; [exact Hs|]. split; [exact Hi | exact He].
Defined.

(** ** Overlapping recomputes *)

(** C2, refuted as stated: "akita" is ticked, then "beagle" before the first
    batch has resolved.  The batch of the second selection resolves first
    and is committed; the batch of the first selection resolves afterwards
    and is committed over it.  The gallery ends up showing the result of the
    first recompute while both breeds are selected and nothing is pending. *)
Lemma stale_batch_is_committed :
  exists w,
    run [BreedsSettled four_breeds;
         Tick "akita";
         Tick "beagle";
         ImagesSettled 1 [images_body ["a1.jpg"; "a2.jpg"; "a3.jpg"];
                          images_body ["b1.jpg"; "b2.jpg"; "b3.jpg"]];
         ImagesSettled 0 [images_body ["a4.jpg"; "a5.jpg"; "a6.jpg"]]] mount
    = Some w /\
    selectedBreeds (home w) = ["akita"; "beagle"] /\
    imagesPending w = [] /\
    images (home w) = [mkImage (JStr "a4.jpg") "akita";
                       mkImage (JStr "a5.jpg") "akita";
                       mkImage (JStr "a6.jpg") "akita"].
Proof. eexists. repeat split. Qed.

(** C2, amended.  When the selection is changed to [S1] and then to [S2]
    while the batch for [S1] is still pending (both selections non-empty),
    no sequence number is compared at commit time: each batch commits its
    own gallery when it resolves.  If the batch for [S1] resolves first the
    gallery ends as the one for [S2]; if it resolves last the gallery ends
    as the one for [S1].  In both orders, and in every reachable state, the
    gallery is built from a single batch, so every entry carries a breed of
    that batch's selection. *)
Theorem last_settled_batch_wins (w0 w1 w2 : World) (e1 e2 : event)
    (rs1 rs2 : list fetch_result) (urls1 urls2 : list (list json))
    (Hm1 : mutates_selection e1 = true) (Hs1 : step e1 w0 = Some w1)
    (Hm2 : mutates_selection e2 = true) (Hs2 : step e2 w1 = Some w2)
    (Hne1 : selectedBreeds (home w1) <> [])
    (Hne2 : selectedBreeds (home w2) <> [])
    (Hlen1 : List.length rs1 = List.length (selectedBreeds (home w1)))
    (Hlen2 : List.length rs2 = List.length (selectedBreeds (home w2)))
    (Hwf1 : forallb wf_result rs1 = true)
    (Hwf2 : forallb wf_result rs2 = true)
    (Hok1 : map image_urls rs1 = map Some urls1)
    (Hok2 : map image_urls rs2 = map Some urls2) :
  let n := List.length (imagesPending w0) in
  (exists w,
     run [ImagesSettled n rs1; ImagesSettled n rs2] w2 = Some w /\
     images (home w) = gallery (selectedBreeds (home w2)) urls2 /\
     imagesPending w = imagesPending w0) /\
  (exists w,
     run [ImagesSettled (S n) rs2; ImagesSettled n rs1] w2 = Some w /\
     images (home w) = gallery (selectedBreeds (home w1)) urls1 /\
     selectedBreeds (home w) = selectedBreeds (home w2) /\
     imagesPending w = imagesPending w0) /\
  Forall (fun e => In (breed e) (selectedBreeds (home w1)))
         (gallery (selectedBreeds (home w1)) urls1) /\
  Forall (fun e => In (breed e) (selectedBreeds (home w2)))
         (gallery (selectedBreeds (home w2)) urls2) /\
  (forall w, reachable w ->
     exists selected urls,
       List.length urls = List.length selected /\
       images (home w) = gallery selected urls).
Proof.
  intros n.
  destruct (mutation_issues _ _ _ Hm1 Hs1 Hne1) as (Hp1 & _ & _).
  destruct (mutation_issues _ _ _ Hm2 Hs2 Hne2) as (Hp2 & _ & _).
  rewrite Hp1, <- app_assoc in Hp2. simpl in Hp2.
  set (S1 := selectedBreeds (home w1)) in *.
  set (S2 := selectedBreeds (home w2)) in *.
  assert (Hfirst : nth_error (imagesPending w2) n = Some S1)
    by (rewrite Hp2; apply nth_error_middle).
  assert (Hp2' : imagesPending w2 = (imagesPending w0 ++ [S1]) ++ [S2])
    by (rewrite <- app_assoc; exact Hp2).
  assert (Hn' : S n = List.length (imagesPending w0 ++ [S1]))
    by (rewrite length_app; simpl; unfold n; lia).
  assert (Hsecond : nth_error (imagesPending w2) (S n) = Some S2)
    by (rewrite Hp2', Hn'; apply nth_error_middle).
  assert (Hdrop1 : remove_nth n (imagesPending w2) = imagesPending w0 ++ [S2])
    by (rewrite Hp2; apply remove_nth_middle).
  assert (Hdrop2 : remove_nth (S n) (imagesPending w2) = imagesPending w0 ++ [S1]).
  { rewrite Hp2', Hn', remove_nth_middle. apply app_nil_r. }
  assert (Hlast : forall x,
            remove_nth n (imagesPending w0 ++ [x]) = imagesPending w0).
  { intros x. unfold n. rewrite remove_nth_middle. apply app_nil_r. }
  assert (Hnth : forall x,
            nth_error (imagesPending w0 ++ [x]) n = Some x)
    by (intros x; apply nth_error_middle).
  split; [|split; [|split; [|split]];
    [|apply gallery_breeds|apply gallery_breeds|exact gallery_of_one_batch]].
  - destruct (settle_commits w2 n S1 rs1 urls1 Hfirst Hlen1 Hwf1 Hok1)
      as (wa & Ha & _ & Hpa & Hsa & _).
    rewrite Hdrop1 in Hpa.
    destruct (settle_commits wa n S2 rs2 urls2) as (wb & Hb & Hib & Hpb & _);
      trivial.
    { rewrite Hpa. apply Hnth. }
    exists wb. cbn [run]. rewrite Ha, Hb. repeat split; trivial.
    rewrite Hpb, Hpa. apply Hlast.
  - destruct (settle_commits w2 (S n) S2 rs2 urls2 Hsecond Hlen2 Hwf2 Hok2)
      as (wa & Ha & _ & Hpa & Hsa & _).
    rewrite Hdrop2 in Hpa.
    destruct (settle_commits wa n S1 rs1 urls1) as (wb & Hb & Hib & Hpb & Hsb & _);
      trivial.
    { rewrite Hpa. apply Hnth. }
    exists wb. cbn [run]. rewrite Ha, Hb. repeat split; trivial.
    + rewrite Hsb, Hsa. reflexivity.
    + rewrite Hpb, Hpa. apply Hlast.
Qed.

Lemma last_settled_batch_wins_witness :
  exists w,
    run [ImagesSettled 1 [images_body ["a1.jpg"; "a2.jpg"; "a3.jpg"];
                          images_body ["b1.jpg"; "b2.jpg"; "b3.jpg"]];
         ImagesSettled 0 [images_body ["a4.jpg"; "a5.jpg"; "a6.jpg"]]]
        (after [BreedsSettled four_breeds; Tick "akita"; Tick "beagle"])
    = Some w /\
    images (home w) = [mkImage (JStr "a4.jpg") "akita";
                       mkImage (JStr "a5.jpg") "akita";
                       mkImage (JStr "a6.jpg") "akita"].
Proof.
  destruct (last_settled_batch_wins
              (after [BreedsSettled four_breeds])
              (after [BreedsSettled four_breeds; Tick "akita"])
              (after [BreedsSettled four_breeds; Tick "akita"; Tick "beagle"])
              (Tick "akita") (Tick "beagle")
              [images_body ["a4.jpg"; "a5.jpg"; "a6.jpg"]]
              [images_body ["a1.jpg"; "a2.jpg"; "a3.jpg"];
               images_body ["b1.jpg"; "b2.jpg"; "b3.jpg"]]
              [[JStr "a4.jpg"; JStr "a5.jpg"; JStr "a6.jpg"]]
              [[JStr "a1.jpg"; JStr "a2.jpg"; JStr "a3.jpg"];
               [JStr "b1.jpg"; JStr "b2.jpg"; JStr "b3.jpg"]]
              eq_refl eq_refl eq_refl eq_refl
              ltac:(discriminate) ltac:(discriminate)
              eq_refl eq_refl eq_refl eq_refl eq_refl eq_refl)
    as (_ & (w & Hrun & Hi & _) & _).
  exists w. split; [exact Hrun | exact Hi].
Defined.

(** ** The gallery and the selection *)

(** C4, refuted as stated: "akita" is ticked and unticked before its batch
    resolves.  When the batch resolves nothing is pending any more, nothing
    is selected, and the gallery shows three entries for "akita". *)
Lemma orphaned_entries_after_deselect :
  exists w,
    run [BreedsSettled four_breeds;
         Tick "akita";
         Tick "akita";
         ImagesSettled 0 [images_body ["a1.jpg"; "a2.jpg"; "a3.jpg"]]] mount
    = Some w /\
    imagesPending w = [] /\
    selectedBreeds (home w) = [] /\
    images (home w) = [mkImage (JStr "a1.jpg") "akita";
                       mkImage (JStr "a2.jpg") "akita";
                       mkImage (JStr "a3.jpg") "akita"] /\
    ~ Forall (fun e => In (breed e) (selectedBreeds (home w))) (images (home w)).
Proof.
  eexists. split; [reflexivity|]. repeat split.
  intros H. inversion H as [|? ? Hin _]. exact Hin.
Qed.

Section Orderly.

Lemma all_ok_urls rs :
  forallb (fun r => match image_urls r with Some _ => true | None => false end) rs
  = true ->
  exists urls, map image_urls rs = map Some urls.
Proof.
  intros H. destruct (success_or_failure rs) as [Hs|(r & Hin & Hr)]; [exact Hs|].
  exfalso. rewrite forallb_forall in H. specialize (H r Hin).
  rewrite Hr in H. discriminate.
Qed.

Lemma settled_step e w w' :
  settled w -> orderly e w = true -> step e w = Some w' -> settled w'.
Proof.
  intros Hw Ho H. unfold orderly in Ho. apply andb_true_iff in Ho.
  destruct Ho as [Hquiet Hok].
  destruct e as [r|i rs|b|value|shuffled|t|checked].
  - simpl in H. destruct (_ && _); [|discriminate]. injection H as <-.
    unfold settled, fetchBreeds_settle in *. simpl.
    destruct (fetchBreeds_try r); exact Hw.
  - simpl in H, Hok. unfold settled in Hw.
    destruct (imagesPending w) as [|selected [|]] eqn:Ep; try contradiction.
    { destruct i; discriminate. }
    destruct i as [|[|i]]; try discriminate. simpl in H.
    destruct (_ =? _)%nat eqn:El; [|discriminate].
    destruct (forallb wf_result rs); [|discriminate]. injection H as <-.
    apply Nat.eqb_eq in El.
    destruct (all_ok_urls rs Hok) as (urls & Hu).
    unfold settled, fetchImages_settle. simpl.
    rewrite (fetchImages_try_ok _ _ _ El Hu). simpl.
    rewrite <- Hw. apply gallery_breeds.
  - simpl in Hquiet.
    destruct (imagesPending w) eqn:Ep; [|discriminate].
    destruct (selectedBreeds (home w')) as [|x t] eqn:Es.
    + destruct (mutation_clears (Tick b) _ _ eq_refl H Es) as (Hi & _ & Hp).
      unfold settled. rewrite Hp, Ep, Hi. constructor.
    + destruct (mutation_issues (Tick b) _ _ eq_refl H) as (Hp & _); [congruence|].
      unfold settled. rewrite Hp, Ep. reflexivity.
  - injection H as <-. exact Hw.
  - simpl in Hquiet.
    destruct (imagesPending w) eqn:Ep; [|discriminate].
    destruct (selectedBreeds (home w')) as [|x t] eqn:Es.
    + destruct (mutation_clears (ClickRandom shuffled) _ _ eq_refl H Es) as (Hi & _ & Hp).
      unfold settled. rewrite Hp, Ep, Hi. constructor.
    + destruct (mutation_issues (ClickRandom shuffled) _ _ eq_refl H) as (Hp & _); [congruence|].
      unfold settled. rewrite Hp, Ep. reflexivity.
  - injection H as <-. exact Hw.
  - injection H as <-. exact Hw.
Qed.

Lemma run_orderly_settled es : forall w w',
  settled w -> run_orderly es w = Some w' -> settled w' /\ run es w = Some w'.
Proof.
  induction es as [|e t IH]; simpl; intros w w' Hw H.
  - injection H as <-. split; [exact Hw | reflexivity].
  - destruct (orderly e w) eqn:Ho; [|discriminate].
    destruct (step e w) as [w1|] eqn:Es; [|discriminate].
    apply (IH w1 w'); [|exact H]. eapply settled_step; eassumption.
Qed.

Lemma settled_mount : settled mount.
Proof. unfold settled. simpl. constructor. Qed.

End Orderly.

(** C4, amended.  In every state reached by a run in which the selection is
    changed only while no batch is pending and every batch succeeds, once
    nothing is pending every entry of the gallery carries a breed that is
    selected: no entry of a deselected breed outlives the selection change. *)
Theorem orderly_gallery_within_selection (es : list event) (w : World)
    (Hrun : run_orderly es mount = Some w)
    (Hquiet : imagesPending w = []) :
  reachable w /\
  Forall (fun e => In (breed e) (selectedBreeds (home w))) (images (home w)).
Proof.
  destruct (run_orderly_settled es mount w settled_mount Hrun) as (Hs & Hr).
  split; [exists es; exact Hr|].
  unfold settled in Hs. rewrite Hquiet in Hs. exact Hs.
Qed.

Lemma orderly_gallery_within_selection_witness :
  Forall (fun e => In (breed e) ["beagle"])
         [mkImage (JStr "b1.jpg") "beagle";
          mkImage (JStr "b2.jpg") "beagle";
          mkImage (JStr "b3.jpg") "beagle"].
Proof.
  exact (proj2 (orderly_gallery_within_selection
                  [BreedsSettled four_breeds;
                   Tick "akita";
                   ImagesSettled 0 [images_body ["a1.jpg"; "a2.jpg"; "a3.jpg"]];
                   Tick "beagle";
                   ImagesSettled 0 [images_body ["a4.jpg"; "a5.jpg"; "a6.jpg"];
                                    images_body ["b4.jpg"; "b5.jpg"; "b6.jpg"]];
                   Tick "akita";
                   ImagesSettled 0 [images_body ["b1.jpg"; "b2.jpg"; "b3.jpg"]]]
                  _ eq_refl eq_refl)).
Defined.

(** ** Ticking the same breed twice *)

(** C5, refuted as stated, twice over.  With "akita" and "beagle" selected
    in that order and their gallery settled, "akita" is ticked twice and
    every batch settles successfully, each breed delivering the same URLs as
    before: the selection is now "beagle", "akita" and the gallery lists the
    beagle entries first, so neither is the original value.  And with
    nothing selected and an empty gallery, "akita" is ticked twice before
    its batch resolves: once the batch has settled the selection is empty
    again but the gallery shows three entries. *)
Lemma double_toggle_reorders :
  (exists w w',
    run [BreedsSettled four_breeds;
         Tick "akita";
         ImagesSettled 0 [images_body akita_urls];
         Tick "beagle";
         ImagesSettled 0 [images_body akita_urls; images_body beagle_urls]] mount
    = Some w /\
    run [Tick "akita";
         Tick "akita";
         ImagesSettled 0 [images_body beagle_urls];
         ImagesSettled 0 [images_body beagle_urls; images_body akita_urls]] w
    = Some w' /\
    imagesPending w = [] /\ imagesPending w' = [] /\
    selectedBreeds (home w) = ["akita"; "beagle"] /\
    selectedBreeds (home w') = ["beagle"; "akita"] /\
    selectedBreeds (home w') <> selectedBreeds (home w) /\
    images (home w) = gallery ["akita"; "beagle"]
                              [map JStr akita_urls; map JStr beagle_urls] /\
    images (home w') = gallery ["beagle"; "akita"]
                               [map JStr beagle_urls; map JStr akita_urls] /\
    images (home w') <> images (home w)) /\
  (exists w w',
    run [BreedsSettled four_breeds] mount = Some w /\
    run [Tick "akita"; Tick "akita"; ImagesSettled 0 [images_body akita_urls]] w
    = Some w' /\
    imagesPending w = [] /\ imagesPending w' = [] /\
    selectedBreeds (home w) = [] /\
    selectedBreeds (home w') = [] /\
    images (home w) = [] /\
    images (home w') = gallery ["akita"] [map JStr akita_urls] /\
    images (home w') <> images (home w)).
Proof.
  split.
  - eexists. eexists. split; [reflexivity|]. split; [reflexivity|].
    repeat split; discriminate.
  - eexists. eexists. split; [reflexivity|]. split; [reflexivity|].
    repeat split; discriminate.
Qed.

Section DoubleToggle.

Lemma gallery_by_flat_map urls_of selected :
  gallery_by urls_of selected
  = flat_map (fun x => entries_of x (urls_of x)) selected.
Proof.
  unfold gallery_by, gallery.
  induction selected as [|x t IH]; simpl; [reflexivity|].
  f_equal. exact IH.
Qed.

Lemma gallery_by_perm urls_of s1 s2 :
  Permutation s1 s2 ->
  Permutation (gallery_by urls_of s1) (gallery_by urls_of s2).
Proof.
  intros H. rewrite !gallery_by_flat_map. apply Permutation_flat_map, H.
Qed.

Lemma tick_step b w :
  Array_includes (filteredBreeds (breeds (home w)) (searchTerm (home w))) b = true ->
  step (Tick b) w = Some (selectedBreeds_effect (with_home (handleBreedSelection b) w)).
Proof. intros H. simpl. rewrite H. reflexivity. Qed.

End DoubleToggle.

(** C5, amended.  Ticking a breed the picker shows twice runs the selection
    effect twice, once per tick.  Afterwards the selection holds the same
    breeds as before: it is the very same array when the breed was not
    selected, and has the breed moved to the end when it was.  At the moment
    the batch of the final selection settles successfully, each breed
    delivering the URLs [urls_of] assigns it, the gallery holds the entries
    the original selection yields for those URLs, in the same order when the
    breed was not selected and up to order otherwise.  A final selection
    that is empty has its gallery cleared by the second tick itself.  (What
    an older batch does when it settles later is the subject of C2.) *)
Theorem double_toggle (w : World) (b : string)
    (Hnodup : NoDup (selectedBreeds (home w)))
    (Hshown : Array_includes
                (filteredBreeds (breeds (home w)) (searchTerm (home w))) b = true) :
  exists w1 w2,
    step (Tick b) w = Some w1 /\
    step (Tick b) w1 = Some w2 /\
    w1 = selectedBreeds_effect (with_home (handleBreedSelection b) w) /\
    w2 = selectedBreeds_effect (with_home (handleBreedSelection b) w1) /\
    Permutation (selectedBreeds (home w2)) (selectedBreeds (home w)) /\
    (~ In b (selectedBreeds (home w)) ->
       selectedBreeds (home w2) = selectedBreeds (home w)) /\
    (In b (selectedBreeds (home w)) ->
       selectedBreeds (home w2)
       = filter (fun x => negb (String.eqb x b)) (selectedBreeds (home w)) ++ [b]) /\
    (selectedBreeds (home w2) = [] -> images (home w2) = []) /\
    (selectedBreeds (home w2) <> [] ->
       exists pre, imagesPending w2 = pre ++ [selectedBreeds (home w2)]) /\
    (forall urls_of w' i rs,
       nth_error (imagesPending w') i = Some (selectedBreeds (home w2)) ->
       List.length rs = List.length (selectedBreeds (home w2)) ->
       forallb wf_result rs = true ->
       map image_urls rs = map (fun x => Some (urls_of x)) (selectedBreeds (home w2)) ->
       exists w3,
         step (ImagesSettled i rs) w' = Some w3 /\
         Permutation (images (home w3))
                     (gallery_by urls_of (selectedBreeds (home w))) /\
         (~ In b (selectedBreeds (home w)) ->
            images (home w3) = gallery_by urls_of (selectedBreeds (home w)))).
Proof.
  set (w1 := selectedBreeds_effect (with_home (handleBreedSelection b) w)).
  set (w2 := selectedBreeds_effect (with_home (handleBreedSelection b) w1)).
  assert (Hstep1 : step (Tick b) w = Some w1) by (apply tick_step, Hshown).
  assert (Hstep2 : step (Tick b) w1 = Some w2).
  { apply tick_step. unfold w1.
    rewrite effect_breeds, effect_searchTerm. exact Hshown. }
  assert (Hsel : selectedBreeds (home w2)
                 = toggle b (toggle b (selectedBreeds (home w)))).
  { unfold w2. rewrite effect_selectedBreeds. simpl.
    unfold w1. rewrite effect_selectedBreeds. reflexivity. }
  exists w1, w2.
  split; [exact Hstep1|]. split; [exact Hstep2|].
  split; [reflexivity|]. split; [reflexivity|].
  split; [rewrite Hsel; apply toggle_twice_perm, Hnodup|].
  split; [intros Hout; rewrite Hsel; apply toggle_on_off, Hout|].
  split; [intros Hin; rewrite Hsel; apply toggle_off_on, Hin|].
  split; [apply (mutation_clears (Tick b) w1 w2 eq_refl Hstep2)|].
  split.
  { intros Hne.
    destruct (mutation_issues (Tick b) w1 w2 eq_refl Hstep2 Hne) as (Hp & _).
    eexists. exact Hp. }
  intros urls_of w' i rs Hn Hlen Hwf Hok.
  rewrite <- (map_map urls_of Some) in Hok.
  destruct (settle_commits w' i _ rs _ Hn Hlen Hwf Hok) as (w3 & Hs & Hi & _).
  exists w3. split; [exact Hs|].
  change (images (home w3) = gallery_by urls_of (selectedBreeds (home w2))) in Hi.
  rewrite Hi. split.
  - apply gallery_by_perm. rewrite Hsel. apply toggle_twice_perm, Hnodup.
  - intros Hout. rewrite Hsel, toggle_on_off by exact Hout. reflexivity.
Qed.

Lemma double_toggle_witness :
  exists w1 w2,
    step (Tick "akita")
         (after [BreedsSettled four_breeds; Tick "akita"; Tick "beagle"]) = Some w1 /\
    step (Tick "akita") w1 = Some w2 /\
    selectedBreeds (home w2) = ["beagle"; "akita"].
Proof.
  destruct (double_toggle
              (after [BreedsSettled four_breeds; Tick "akita"; Tick "beagle"])
              "akita"
              (proj1 (distinct_NoDup ["akita"; "beagle"]) eq_refl)
              eq_refl)
    as (w1 & w2 & H1 & H2 & _ & _ & _ & _ & Hmove & _).
  exists w1, w2. split; [exact H1|]. split; [exact H2|].
  apply Hmove. simpl. auto.
Defined.

(** ** Random selection *)

Section RandomSelection.



End RandomSelection.

Section Chances.

Lemma power_of_two_not_tenfold d : forall k, 10 * k <> 2 ^ d.
Proof.
  assert (H : exists q r, 2 ^ d = 5 * q + r /\ 1 <= r <= 4).
  { induction d as [|d (q & r & E & Hr)].
    - exists 0, 1. simpl. lia.
    - rewrite Nat.pow_succ_r', E.
      assert (C : r = 1 \/ r = 2 \/ r = 3 \/ r = 4) by lia.
      destruct C as [->|[->|[->| ->]]].
      + exists (2 * q), 2. lia.
      + exists (2 * q), 4. lia.
      + exists (2 * q + 1), 1. lia.
      + exists (2 * q + 1), 3. lia. }
  destruct H as (q & r & E & Hr). intros k C. lia.
Qed.

Lemma procedure_ways_total t : forall d,
  calls t <= d -> procedure_ways (fun _ => true) d t = 2 ^ d.
Proof.
  induction t as [order|n IHn p IHp]; intros d Hd; simpl; [reflexivity|].
  destruct d as [|k]; [simpl in Hd; lia|].
  simpl in Hd. rewrite IHn, IHp by lia. simpl. lia.
Qed.

(** Whatever comparison sort the engine runs, the signs being fair coins:
    the chances of the possible selections add up to one, and the chance of
    any set of selections is a number of sign sequences over a power of
    two, hence never 1/10, the chance a uniform sample gives each of the ten
    three-breed subsets of a five-breed catalog. *)
Lemma no_sort_samples_five_uniformly (t : procedure) (d : nat)
    (P : list string -> bool) :
  calls t <= d ->
  procedure_ways (fun _ => true) d t = 2 ^ d /\
  10 * procedure_ways P d t <> 2 ^ d.
Proof.
  intros Hd. split; [apply procedure_ways_total, Hd|].
  apply power_of_two_not_tenfold.
Qed.

End Chances.




(** ** The search box *)

(** C7.  Typing into the search box changes [searchTerm] and nothing else:
    selection, gallery, catalog, pending batches, issued requests and error
    slot are as before.  The picker then shows, in catalog order, exactly
    the breeds whose name contains the term regardless of case; "lab" (in
    any case) against affenpinscher and labrador shows labrador. *)
Theorem search_only_filters (w : World) (term : string) :
  exists w',
    step (TypeSearch term) w = Some w' /\
    selectedBreeds (home w') = selectedBreeds (home w) /\
    images (home w') = images (home w) /\
    breeds (home w') = breeds (home w) /\
    error (home w') = error (home w) /\
    imagesPending w' = imagesPending w /\
    fetched w' = fetched w /\
    breedsPending w' = breedsPending w /\
    filteredBreeds (breeds (home w')) (searchTerm (home w'))
    = filter (fun name => includes (toLowerCase name) (toLowerCase term))
             (breeds (home w)) /\
    (forall name,
       In name (filteredBreeds (breeds (home w')) (searchTerm (home w'))) <->
       In name (breeds (home w)) /\ ci_substring term name) /\
    filteredBreeds ["affenpinscher"; "labrador"]
                   (searchTerm (handleSearch "lab" (home w))) = ["labrador"] /\
    filteredBreeds ["affenpinscher"; "labrador"]
                   (searchTerm (handleSearch "LAB" (home w))) = ["labrador"].
Proof.
  eexists. split; [reflexivity|]. simpl.
  repeat (split; [reflexivity|]).
  split; [|split; reflexivity].
  intros name. unfold filteredBreeds. rewrite filter_In, includes_spec.
  reflexivity.
Qed.

(** ** The order of the catalog *)

Section CodeUnitOrder.

Lemma ascii_compare_refl a : Ascii.compare a a = Eq.
Proof. unfold Ascii.compare. apply BinNat.N.compare_refl. Qed.

Lemma ascii_compare_lt_trans a b c :
  Ascii.compare a b = Lt -> Ascii.compare b c = Lt -> Ascii.compare a c = Lt.
Proof.
  unfold Ascii.compare. rewrite !BinNat.N.compare_lt_iff.
  apply BinNat.N.lt_trans.
Qed.

Lemma string_compare_lt_trans a : forall b c,
  String.compare a b = Lt -> String.compare b c = Lt -> String.compare a c = Lt.
Proof.
  induction a as [|x a IH]; intros [|y b] [|z c]; simpl; try discriminate; trivial.
  destruct (Ascii.compare x y) eqn:Exy; try discriminate;
    destruct (Ascii.compare y z) eqn:Eyz; try discriminate.
  - apply Ascii.compare_eq_iff in Exy, Eyz. subst.
    rewrite ascii_compare_refl. apply IH.
  - apply Ascii.compare_eq_iff in Exy. subst. rewrite Eyz. trivial.
  - apply Ascii.compare_eq_iff in Eyz. subst. rewrite Exy. trivial.
  - rewrite (ascii_compare_lt_trans _ _ _ Exy Eyz). trivial.
Qed.

Lemma code_unit_lt_trans a b c :
  code_unit_lt a b -> code_unit_lt b c -> code_unit_lt a c.
Proof.
  unfold code_unit_lt, String.ltb. intros Hab Hbc.
  destruct (String.compare a b) eqn:Eab; try discriminate.
  destruct (String.compare b c) eqn:Ebc; try discriminate.
  rewrite (string_compare_lt_trans _ _ _ Eab Ebc). reflexivity.
Qed.

Lemma code_unit_le_lt_eq a b : code_unit_le a b <-> code_unit_lt a b \/ a = b.
Proof.
  unfold code_unit_le, code_unit_lt, String.leb, String.ltb. split.
  - destruct (String.compare a b) eqn:E; try discriminate; intros _.
    + right. apply String.compare_eq_iff, E.
    + left. reflexivity.
  - intros [H| ->].
    + destruct (String.compare a b); try discriminate; reflexivity.
    + destruct (String.compare b b) eqn:E; trivial.
      pose proof (String.compare_antisym b b) as A.
      rewrite E in A. discriminate A.
Qed.

Lemma code_unit_le_trans a b c :
  code_unit_le a b -> code_unit_le b c -> code_unit_le a c.
Proof.
  rewrite !code_unit_le_lt_eq. intros [Hab| ->] [Hbc| ->]; auto.
  left. eapply code_unit_lt_trans; eassumption.
Qed.

Lemma code_unit_lt_irrefl a : ~ code_unit_lt a a.
Proof.
  unfold code_unit_lt, String.ltb. intros H.
  destruct (String.compare a a) eqn:E; try discriminate.
  pose proof (String.compare_antisym a a) as A.
  rewrite E in A. discriminate A.
Qed.

Lemma sorted_strongly l :
  Sorted code_unit_le l -> StronglySorted code_unit_le l.
Proof.
  apply Sorted_StronglySorted. intros a b c. apply code_unit_le_trans.
Qed.

(** Two ascending arrays with the same elements are the same array. *)
Lemma sorted_unique l1 : forall l2,
  Sorted code_unit_le l1 -> Sorted code_unit_le l2 ->
  Permutation l1 l2 -> l1 = l2.
Proof.
  induction l1 as [|a t1 IH]; intros l2 H1 H2 Hp.
  - apply Permutation_nil in Hp. subst. reflexivity.
  - destruct l2 as [|b t2].
    { apply Permutation_sym, Permutation_nil in Hp. discriminate. }
    apply sorted_strongly in H1, H2.
    inversion H1 as [|? ? Ht1 Ha]; subst.
    inversion H2 as [|? ? Ht2 Hb]; subst.
    assert (a = b).
    { assert (Hab : In a (b :: t2))
        by (eapply Permutation_in; [exact Hp | left; reflexivity]).
      assert (Hba : In b (a :: t1))
        by (eapply Permutation_in; [apply Permutation_sym, Hp | left; reflexivity]).
      destruct Hab as [->|Hab]; [reflexivity|].
      destruct Hba as [->|Hba]; [reflexivity|].
      rewrite Forall_forall in Ha, Hb.
      apply String.leb_antisym; [apply Ha, Hba | apply Hb, Hab]. }
    subst b. f_equal.
    apply IH.
    + apply StronglySorted_Sorted, Ht1.
    + apply StronglySorted_Sorted, Ht2.
    + eapply Permutation_cons_inv, Hp.
Qed.

Lemma sorted_nodup_strict l :
  Sorted code_unit_le l -> NoDup l -> StronglySorted code_unit_lt l.
Proof.
  intros Hs Hn. apply sorted_strongly in Hs.
  induction Hs as [|a t Ht IH Ha]; [constructor|].
  inversion Hn as [|? ? Hnotin Hnt]; subst.
  constructor; [apply IH, Hnt|].
  rewrite Forall_forall in *. intros x Hx.
  destruct (proj1 (code_unit_le_lt_eq a x) (Ha x Hx)) as [H| ->];
    [exact H | contradiction].
Qed.

End CodeUnitOrder.

(** X1.  The catalog does not depend on the order in which the response
    lists the breeds: two bodies whose [message] objects have the same keys
    give the same outcome of [fetchBreeds], and sorting an already sorted
    catalog again changes nothing. *)
Theorem catalog_ignores_key_order (status1 status2 : nat) (data1 data2 : json)
    (mapping1 mapping2 : list (string * json))
    (Hmsg1 : message data1 = Normal (Some (JObj mapping1)))
    (Hmsg2 : message data2 = Normal (Some (JObj mapping2)))
    (Hkeys : Permutation (map fst mapping1) (map fst mapping2)) :
  fetchBreeds_try (HttpResponse status1 (Some data1))
  = fetchBreeds_try (HttpResponse status2 (Some data2)) /\
  (forall h,
     fetchBreeds_settle (HttpResponse status1 (Some data1)) h
     = fetchBreeds_settle (HttpResponse status2 (Some data2)) h) /\
  sort (sort (map fst mapping1)) = sort (map fst mapping1).
Proof.
  assert (Hsame : sort (map fst mapping1) = sort (map fst mapping2)).
  { apply sorted_unique; try apply sort_sorted.
    eapply perm_trans; [apply sort_perm|].
    eapply perm_trans; [exact Hkeys | apply Permutation_sym, sort_perm]. }
  assert (Htry : fetchBreeds_try (HttpResponse status1 (Some data1))
                 = fetchBreeds_try (HttpResponse status2 (Some data2))).
  { unfold fetchBreeds_try. simpl. rewrite Hmsg1, Hmsg2. simpl.
    rewrite Hsame. reflexivity. }
  split; [exact Htry|]. split.
  - intros h. unfold fetchBreeds_settle. rewrite Htry. reflexivity.
  - apply sorted_unique; try apply sort_sorted. apply sort_perm.
Qed.

Lemma catalog_ignores_key_order_witness :
  fetchBreeds_try
    (HttpResponse 200 (Some (breeds_body [("labrador", JArr []); ("akita", JArr [])])))
  = fetchBreeds_try
    (HttpResponse 200 (Some (breeds_body [("akita", JArr []); ("labrador", JArr [])]))).
Proof.
  exact (proj1 (catalog_ignores_key_order 200 200
                  (breeds_body [("labrador", JArr []); ("akita", JArr [])])
                  (breeds_body [("akita", JArr []); ("labrador", JArr [])])
                  [("labrador", JArr []); ("akita", JArr [])]
                  [("akita", JArr []); ("labrador", JArr [])]
                  eq_refl eq_refl
                  (proj1 (same_elements_Permutation
                            ["labrador"; "akita"] ["akita"; "labrador"]) eq_refl))).
Defined.

(** ** Invariants of the component *)

Section Coherence.

Lemma mutation_keeps e w w' :
  mutates_selection e = true -> step e w = Some w' ->
  breeds (home w') = breeds (home w) /\
  breedsPending w' = breedsPending w /\
  searchTerm (home w') = searchTerm (home w) /\
  error (home w') = error (home w) /\
  theme (home w') = theme (home w) /\
  showBreedNames (home w') = showBreedNames (home w).
Proof.
  intros Hm H.
  destruct e as [r|i rs|b|value|shuffled|t|checked]; try discriminate; simpl in H.
  - destruct (Array_includes _ _); [|discriminate]. injection H as <-.
    unfold selectedBreeds_effect. destruct (0 <? _)%nat; repeat split.
  - destruct (same_elements _ _); [|discriminate]. injection H as <-.
    unfold selectedBreeds_effect. destruct (0 <? _)%nat; repeat split.
Qed.

Lemma remove_nth_Forall {A} (P : A -> Prop) i l :
  Forall P l -> Forall P (remove_nth i l).
Proof.
  intros H. unfold remove_nth. apply Forall_app. split.
  - rewrite <- (firstn_skipn i l) in H. apply Forall_app in H. apply H.
  - rewrite <- (firstn_skipn (S i) l) in H. apply Forall_app in H. apply H.
Qed.

Lemma coherent_mount : coherent mount.
Proof.
  unfold coherent. simpl. repeat split; try constructor.
  exists []. split; [reflexivity | intros x []].
Qed.

Lemma fetchBreeds_try_sorted r l :
  fetchBreeds_try r = Normal l -> Sorted code_unit_le l.
Proof.
  unfold fetchBreeds_try. intros H.
  destruct (fetch_json r) as [data|]; simpl in H; try discriminate.
  destruct (message data) as [m|]; simpl in H; try discriminate.
  destruct (Object_keys m) as [keys|]; simpl in H; try discriminate.
  injection H as <-. apply sort_sorted.
Qed.

Lemma coherent_mutation e w w' :
  mutates_selection e = true ->
  tidy w -> coherent w -> step e w = Some w' -> coherent w'.
Proof.
  intros Hm Ht (Hsorted & Hpend & Himg & (requested & Hlog & Hreq) & Hearly) H.
  pose proof (tidy_step e w w' Ht H) as (_ & Hnd' & Hincl' & _).
  destruct (mutation_keeps e w w' Hm H) as (Hb & Hp & _).
  rewrite Hb in Hincl'.
  unfold coherent. rewrite Hb, Hp.
  destruct (selectedBreeds (home w')) as [|x t] eqn:Es.
  - destruct (mutation_clears e w w' Hm H Es) as (Hi & Hf & Hq).
    rewrite Hi, Hf, Hq.
    split; [exact Hsorted|]. split; [exact Hpend|]. split; [constructor|].
    split; [exists requested; split; assumption|].
    intros Hpending. destruct (Hearly Hpending) as (A & _ & C).
    split; [exact A|]. split; [reflexivity | exact C].
  - assert (Hne : selectedBreeds (home w') <> []) by (rewrite Es; discriminate).
    destruct (mutation_issues e w w' Hm H Hne) as (Hq & Hf & Hi).
    rewrite Hi, Hf, Hq, Es.
    split; [exact Hsorted|]. split.
    { apply Forall_app. split; [exact Hpend|].
      constructor; [|constructor].
      split; [discriminate|]. split; assumption. }
    split; [exact Himg|]. split.
    { exists (requested ++ x :: t). split.
      - rewrite Hlog, map_app. reflexivity.
      - apply incl_app; assumption. }
    intros Hpending. exfalso.
    destruct Ht as (_ & _ & _ & Hempty). rewrite (Hempty Hpending) in Hincl'.
    destruct (Hincl' x (or_introl eq_refl)).
Qed.

Lemma coherent_step e w w' :
  tidy w -> coherent w -> step e w = Some w' -> coherent w'.
Proof.
  intros Ht Hc H.
  destruct e as [r|i rs|b|value|shuffled|t|checked].
  - (* the catalog settles *)
    destruct Hc as (Hsorted & Hpend & Himg & Hlog & Hearly).
    simpl in H. destruct (breedsPending w) eqn:Ep; simpl in H; [|discriminate].
    destruct (wf_result r); [|discriminate]. injection H as <-.
    destruct (Hearly eq_refl) as (Hq & Hi & Hf).
    unfold coherent, fetchBreeds_settle. simpl.
    destruct (fetchBreeds_try r) as [l|] eqn:Et; simpl.
    + rewrite Hq, Hi, Hf.
      split; [eapply fetchBreeds_try_sorted, Et|].
      split; [constructor|]. split; [constructor|].
      split; [exists []; split; [reflexivity | intros x []]|].
      discriminate.
    + split; [exact Hsorted|]. split; [exact Hpend|]. split; [exact Himg|].
      split; [exact Hlog | discriminate].
  - (* a batch settles *)
    destruct Hc as (Hsorted & Hpend & Himg & Hlog & Hearly).
    simpl in H.
    destruct (nth_error (imagesPending w) i) as [selected|] eqn:En; [|discriminate].
    destruct (_ =? _)%nat eqn:El; [|discriminate].
    destruct (forallb wf_result rs); [|discriminate]. injection H as <-.
    apply Nat.eqb_eq in El.
    assert (Hsel : incl selected (breeds (home w))).
    { rewrite Forall_forall in Hpend. apply (Hpend selected).
      eapply nth_error_In, En. }
    assert (Hlate : breedsPending w = true -> False).
    { intros Hp. destruct (Hearly Hp) as (Hq & _). rewrite Hq in En.
      destruct i; discriminate. }
    unfold coherent, fetchImages_settle. simpl.
    destruct (fetchImages_try selected rs) as [all|] eqn:Et; simpl.
    + split; [exact Hsorted|]. split; [apply remove_nth_Forall, Hpend|].
      split.
      { pose proof (fetchImages_try_breeds selected rs all El Et) as Hall.
        rewrite Forall_forall in *. intros image Hin. apply Hsel, Hall, Hin. }
      split; [exact Hlog|]. intros Hp. destruct (Hlate Hp).
    + split; [exact Hsorted|]. split; [apply remove_nth_Forall, Hpend|].
      split; [exact Himg|].
      split; [exact Hlog|]. intros Hp. destruct (Hlate Hp).
  - apply (coherent_mutation (Tick b) w w' eq_refl Ht Hc H).
  - injection H as <-. exact Hc.
  - apply (coherent_mutation (ClickRandom shuffled) w w' eq_refl Ht Hc H).
  - injection H as <-. exact Hc.
  - injection H as <-. exact Hc.
Qed.

Lemma reachable_coherent w : reachable w -> tidy w /\ coherent w.
Proof.
  revert w.
  apply (reachable_invariant (fun w => tidy w /\ coherent w)).
  - split; [exact tidy_mount | exact coherent_mount].
  - intros e w w' [Ht Hc] H. split.
    + eapply tidy_step; eassumption.
    + eapply coherent_step; eassumption.
Qed.

End Coherence.

Section CatalogFacts.

Lemma filter_strongly_sorted {A} (R : A -> A -> Prop) (f : A -> bool) l :
  StronglySorted R l -> StronglySorted R (filter f l).
Proof.
  induction 1 as [|a t Ht IH Ha]; simpl; [constructor|].
  destruct (f a); [|exact IH].
  constructor; [exact IH|].
  rewrite Forall_forall in *. intros x Hx. apply filter_In in Hx. apply Ha, Hx.
Qed.

Lemma strictly_sorted_NoDup l : StronglySorted code_unit_lt l -> NoDup l.
Proof.
  induction 1 as [|a t Ht IH Ha]; constructor; [|exact IH].
  intros Hin. rewrite Forall_forall in Ha.
  exact (code_unit_lt_irrefl a (Ha a Hin)).
Qed.

Lemma imagesUrl_not_breedsUrl b : imagesUrl b <> breedsUrl.
Proof. unfold imagesUrl, breedsUrl. simpl. discriminate. Qed.

(** Once the catalog request has settled nothing touches the catalog. *)
Lemma catalog_frozen es : forall w w',
  breedsPending w = false -> run es w = Some w' ->
  breeds (home w') = breeds (home w).
Proof.
  induction es as [|e t IH]; simpl; intros w w' Hp H.
  - injection H as <-. reflexivity.
  - destruct (step e w) as [w1|] eqn:E; [|discriminate].
    assert (Hkeep : breeds (home w1) = breeds (home w) /\ breedsPending w1 = false).
    { destruct e as [r|i rs|b|value|shuffled|th|checked]; simpl in E.
      - rewrite Hp in E. discriminate.
      - destruct (nth_error _ _); [|discriminate].
        destruct (_ && _); [|discriminate]. injection E as <-.
        unfold fetchImages_settle. simpl.
        destruct (fetchImages_try _ _); split; trivial.
      - destruct (mutation_keeps (Tick b) w w1 eq_refl E) as (A & B & _).
        split; congruence.
      - injection E as <-. split; trivial.
      - destruct (mutation_keeps (ClickRandom shuffled) w w1 eq_refl E) as (A & B & _).
        split; congruence.
      - injection E as <-. split; trivial.
      - injection E as <-. split; trivial. }
    destruct Hkeep as (Hb & Hp1). rewrite <- Hb. apply IH; assumption.
Qed.

End CatalogFacts.

(** X2.  In every reachable state the catalog is strictly ascending by code
    units, so it holds no name twice, and the list the picker shows for any
    search term is strictly ascending too. *)
Theorem catalog_strictly_ascending (w : World) (Hw : reachable w) :
  StronglySorted code_unit_lt (breeds (home w)) /\
  (forall term,
     StronglySorted code_unit_lt (filteredBreeds (breeds (home w)) term)).
Proof.
  destruct (reachable_coherent w Hw) as ((Hnd & _) & (Hsorted & _)).
  assert (H : StronglySorted code_unit_lt (breeds (home w)))
    by (apply sorted_nodup_strict; assumption).
  split; [exact H|]. intros term. apply filter_strongly_sorted, H.
Qed.

Lemma catalog_strictly_ascending_witness :
  StronglySorted code_unit_lt ["akita"; "beagle"; "chow"; "husky"].
Proof.
  exact (proj1 (catalog_strictly_ascending
                  (after [BreedsSettled four_breeds; Tick "chow"])
                  (ex_intro _ [BreedsSettled four_breeds; Tick "chow"] eq_refl))).
Defined.

(** X3.  The catalog is written at most once.  While the catalog request
    is pending the catalog is empty, nothing is selected, shown or pending,
    and the catalog request is the only one made; once it has settled,
    whatever happens later leaves the catalog as it is, and the catalog URL
    is never requested a second time. *)
Theorem catalog_written_once (es : list event) (w w' : World)
    (Hw : reachable w)
    (Hrun : run es w = Some w') :
  (breedsPending w' = true ->
     breeds (home w') = [] /\ selectedBreeds (home w') = [] /\
     images (home w') = [] /\ imagesPending w' = [] /\
     fetched w' = [breedsUrl]) /\
  (breedsPending w = false ->
     breeds (home w') = breeds (home w) /\ breedsPending w' = false) /\
  count_occ string_dec (fetched w') breedsUrl = 1.
Proof.
  assert (Hw' : reachable w').
  { destruct Hw as (es0 & H0). exists (es0 ++ es). rewrite run_app, H0. exact Hrun. }
  destruct (reachable_coherent w' Hw')
    as ((_ & _ & Hincl & Hempty) & (_ & _ & _ & (requested & Hlog & _) & Hearly)).
  split; [|split].
  - intros Hp. destruct (Hearly Hp) as (A & B & C).
    rewrite (Hempty Hp) in *.
    repeat split; trivial.
    destruct (selectedBreeds (home w')) as [|x t]; [reflexivity|].
    destruct (Hincl x (or_introl eq_refl)).
  - intros Hp. split.
    + eapply catalog_frozen; eassumption.
    + eapply settled_stays; eassumption.
  - rewrite Hlog. simpl.
    destruct (string_dec breedsUrl breedsUrl) as [_|N]; [|contradiction].
    f_equal. apply count_occ_not_In. intros Hin.
    apply in_map_iff in Hin. destruct Hin as (b & Hb & _).
    exact (imagesUrl_not_breedsUrl b Hb).
Qed.

Lemma catalog_written_once_witness :
  breeds (home (after [BreedsSettled four_breeds; Tick "chow";
                       ImagesSettled 0 [NetworkError]; ClickRandom
                         ["husky"; "chow"; "beagle"; "akita"]]))
  = ["akita"; "beagle"; "chow"; "husky"].
Proof.
  exact (proj1 (proj1 (proj2 (catalog_written_once
           [Tick "chow"; ImagesSettled 0 [NetworkError];
            ClickRandom ["husky"; "chow"; "beagle"; "akita"]]
           (after [BreedsSettled four_breeds])
           (after [BreedsSettled four_breeds; Tick "chow";
                   ImagesSettled 0 [NetworkError];
                   ClickRandom ["husky"; "chow"; "beagle"; "akita"]])
           (ex_intro _ [BreedsSettled four_breeds] eq_refl)
           eq_refl)) eq_refl)).
Defined.

(** X4.  In every reachable state every selected breed is a name of the
    catalog, so at most as many breeds are selected as the catalog holds,
    and a selected breed hidden by the search term is still in the
    catalog. *)
Theorem selection_within_catalog (w : World) (Hw : reachable w) :
  incl (selectedBreeds (home w)) (breeds (home w)) /\
  List.length (selectedBreeds (home w)) <= List.length (breeds (home w)).
Proof.
  destruct (reachable_coherent w Hw) as ((_ & Hnd & Hincl & _) & _).
  split; [exact Hincl|]. apply NoDup_incl_length; assumption.
Qed.

Lemma selection_within_catalog_witness :
  incl ["chow"; "akita"] ["akita"; "beagle"; "chow"; "husky"].
Proof.
  exact (proj1 (selection_within_catalog
                  (after [BreedsSettled four_breeds; Tick "chow"; Tick "akita"])
                  (ex_intro _ [BreedsSettled four_breeds; Tick "chow"; Tick "akita"]
                            eq_refl))).
Defined.

(** X5.  In every reachable state, however batches and selection changes
    interleave, every entry of the gallery carries a breed of the catalog,
    and every pending batch is for a non-empty, duplicate-free selection of
    catalog breeds. *)
Theorem gallery_within_catalog (w : World) (Hw : reachable w) :
  Forall (fun image => In (breed image) (breeds (home w))) (images (home w)) /\
  Forall (fun selected =>
            selected <> [] /\ NoDup selected /\ incl selected (breeds (home w)))
         (imagesPending w).
Proof.
  destruct (reachable_coherent w Hw) as (_ & (_ & Hpend & Himg & _)).
  split; assumption.
Qed.

Lemma gallery_within_catalog_witness :
  Forall (fun image => In (breed image) ["akita"; "beagle"; "chow"; "husky"])
         [mkImage (JStr "a1.jpg") "akita"].
Proof.
  exact (proj1 (gallery_within_catalog
                  (after [BreedsSettled four_breeds; Tick "akita"; Tick "akita";
                          ImagesSettled 0 [images_body ["a1.jpg"]]])
                  (ex_intro _ [BreedsSettled four_breeds; Tick "akita"; Tick "akita";
                               ImagesSettled 0 [images_body ["a1.jpg"]]] eq_refl))).
Defined.

(** ** Requests *)

Section Requests.

Lemma list_ascii_of_append a b :
  list_ascii_of_string (a ++ b)%string
  = list_ascii_of_string a ++ list_ascii_of_string b.
Proof. induction a as [|c a IH]; simpl; [reflexivity | f_equal; exact IH]. Qed.

Lemma append_cancel_r a b s : (a ++ s)%string = (b ++ s)%string -> a = b.
Proof.
  intros H. apply (f_equal list_ascii_of_string) in H.
  rewrite !list_ascii_of_append in H. apply app_inv_tail in H.
  apply (f_equal string_of_list_ascii) in H.
  rewrite !string_of_list_ascii_of_string in H. exact H.
Qed.

(** Different breeds are requested at different URLs. *)
Lemma imagesUrl_inj a b : imagesUrl a = imagesUrl b -> a = b.
Proof.
  unfold imagesUrl. simpl. intros H. injection H as H.
  eapply append_cancel_r, H.
Qed.

Lemma map_imagesUrl_inj l1 : forall l2,
  map imagesUrl l1 = map imagesUrl l2 -> l1 = l2.
Proof.
  induction l1 as [|a t IH]; intros [|b t2] H; try discriminate; [reflexivity|].
  simpl in H. injection H as Ha Ht.
  f_equal; [eapply append_cancel_r, Ha | apply IH, Ht].
Qed.

End Requests.

(** X6.  Requests are issued by selection changes only, one per breed of
    the new selection and in its order, whether or not images of the breed
    are already on display; every other event issues none.  A change that
    leaves nothing selected issues none either. *)
Theorem requests_per_event (e : event) (w w' : World)
    (Hstep : step e w = Some w') :
  fetched w'
  = fetched w ++ (if mutates_selection e
                  then map imagesUrl (selectedBreeds (home w'))
                  else []) /\
  List.length (fetched w')
  = List.length (fetched w) +
    (if mutates_selection e then List.length (selectedBreeds (home w')) else 0).
Proof.
  assert (H : fetched w'
              = fetched w ++ (if mutates_selection e
                              then map imagesUrl (selectedBreeds (home w'))
                              else [])).
  { destruct (mutates_selection e) eqn:Hm.
    - destruct (selectedBreeds (home w')) as [|x t] eqn:Es.
      + destruct (mutation_clears e w w' Hm Hstep Es) as (_ & Hf & _).
        rewrite Hf, app_nil_r. reflexivity.
      + assert (Hne : selectedBreeds (home w') <> []) by (rewrite Es; discriminate).
        destruct (mutation_issues e w w' Hm Hstep Hne) as (_ & Hf & _).
        rewrite Hf, Es. reflexivity.
    - rewrite app_nil_r.
      destruct e as [r|i rs|b|value|shuffled|t|checked]; try discriminate;
        simpl in Hstep.
      + destruct (_ && _); [|discriminate]. injection Hstep as <-. reflexivity.
      + destruct (nth_error _ _); [|discriminate].
        destruct (_ && _); [|discriminate]. injection Hstep as <-. reflexivity.
      + injection Hstep as <-. reflexivity.
      + injection Hstep as <-. reflexivity.
      + injection Hstep as <-. reflexivity. }
  split; [exact H|].
  rewrite H, length_app. destruct (mutates_selection e); [|reflexivity].
  rewrite length_map. reflexivity.
Qed.

Lemma requests_per_event_witness :
  fetched (after [BreedsSettled four_breeds; Tick "akita";
                  ImagesSettled 0 [images_body akita_urls]; Tick "beagle"])
  = [breedsUrl;
     "https://dog.ceo/api/breed/akita/images/random/3";
     "https://dog.ceo/api/breed/akita/images/random/3";
     "https://dog.ceo/api/breed/beagle/images/random/3"].
Proof.
  exact (proj1 (requests_per_event (Tick "beagle")
           (after [BreedsSettled four_breeds; Tick "akita";
                   ImagesSettled 0 [images_body akita_urls]])
           (after [BreedsSettled four_breeds; Tick "akita";
                   ImagesSettled 0 [images_body akita_urls]; Tick "beagle"])
           eq_refl)).
Defined.

(** X7.  In every reachable state the request log is the catalog URL
    followed by image URLs of catalog breeds only, and since different
    breeds have different URLs the log determines which breeds were
    requested and in which order. *)
Theorem request_log_shape (w : World) (Hw : reachable w) :
  exists requested,
    fetched w = breedsUrl :: map imagesUrl requested /\
    incl requested (breeds (home w)) /\
    (forall other, fetched w = breedsUrl :: map imagesUrl other -> other = requested).
Proof.
  destruct (reachable_coherent w Hw) as (_ & (_ & _ & _ & (requested & Hlog & Hin) & _)).
  exists requested. split; [exact Hlog|]. split; [exact Hin|].
  intros other Hother. rewrite Hlog in Hother. injection Hother as Hother.
  symmetry. apply map_imagesUrl_inj, Hother.
Qed.

Lemma request_log_shape_witness :
  exists requested,
    fetched (after [BreedsSettled four_breeds; Tick "akita"; Tick "chow"])
    = breedsUrl :: map imagesUrl requested /\
    incl requested ["akita"; "beagle"; "chow"; "husky"].
Proof.
  destruct (request_log_shape
              (after [BreedsSettled four_breeds; Tick "akita"; Tick "chow"])
              (ex_intro _ [BreedsSettled four_breeds; Tick "akita"; Tick "chow"]
                        eq_refl))
    as (requested & Hlog & Hin & _).
  exists requested. split; [exact Hlog | exact Hin].
Defined.

(** ** The error slot and the settings *)

Section LastEvent.

Lemma last_of_app {A} (f : event -> option A) d es1 es2 :
  last_of f d (es1 ++ es2) = last_of f (last_of f d es1) es2.
Proof. unfold last_of. apply fold_left_app. Qed.

(** A cell that each event either overwrites with [f e] or leaves alone
    holds what the last overwriting event left. *)
Lemma run_last_of {A} (cell : World -> A) (f : event -> option A) :
  (forall e w w1, step e w = Some w1 ->
     cell w1 = match f e with Some a => a | None => cell w end) ->
  forall es w0 w, run es w0 = Some w -> cell w = last_of f (cell w0) es.
Proof.
  intros Hstep. induction es as [|e t IH]; simpl; intros w0 w H.
  - injection H as <-. reflexivity.
  - destruct (step e w0) as [w1|] eqn:E; [|discriminate].
    rewrite (IH w1 w H), (Hstep e w0 w1 E). reflexivity.
Qed.

Lemma not_all_ok rs :
  forallb (fun r => match image_urls r with Some _ => true | None => false end) rs
  = false ->
  exists r, In r rs /\ image_urls r = None.
Proof.
  induction rs as [|r t IH]; simpl; [discriminate|].
  destruct (image_urls r) eqn:E; simpl.
  - intros H. destruct (IH H) as (x & Hin & Hx). exists x. auto.
  - intros _. exists r. auto.
Qed.

Lemma error_step e w w1 :
  step e w = Some w1 ->
  error (home w1)
  = match failure_message e with Some m => m | None => error (home w) end.
Proof.
  intros H. destruct e as [r|i rs|b|value|shuffled|t|checked]; simpl in H.
  - destruct (_ && _); [|discriminate]. injection H as <-.
    unfold failure_message, fetchBreeds_settle. simpl.
    destruct (breeds_fetch_fails r) eqn:Ef.
    + apply breeds_fetch_fails_throws in Ef. rewrite Ef. reflexivity.
    + destruct (fetchBreeds_try r) eqn:Et; [reflexivity|].
      apply breeds_fetch_fails_throws in Et. congruence.
  - destruct (nth_error _ _) as [selected|]; [|discriminate].
    destruct (_ =? _)%nat eqn:El; [|discriminate].
    destruct (forallb wf_result rs); [|discriminate]. injection H as <-.
    apply Nat.eqb_eq in El.
    unfold failure_message, fetchImages_settle. simpl.
    destruct (forallb _ rs) eqn:Eok.
    + destruct (all_ok_urls rs Eok) as (urls & Hu).
      rewrite (fetchImages_try_ok selected rs urls El Hu). reflexivity.
    + rewrite (fetchImages_try_fail selected rs (not_all_ok rs Eok)). reflexivity.
  - destruct (mutation_keeps (Tick b) w w1 eq_refl H) as (_ & _ & _ & He & _).
    exact He.
  - injection H as <-. reflexivity.
  - destruct (mutation_keeps (ClickRandom shuffled) w w1 eq_refl H)
      as (_ & _ & _ & He & _).
    exact He.
  - injection H as <-. reflexivity.
  - injection H as <-. reflexivity.
Qed.

Lemma failure_message_some e m : failure_message e = Some m -> m <> None.
Proof.
  destruct e as [r|i rs|b|value|shuffled|t|checked]; simpl; try discriminate.
  - destruct (breeds_fetch_fails r); [|discriminate].
    intros H. injection H as <-. discriminate.
  - destruct (forallb _ rs); [discriminate|].
    intros H. injection H as <-. discriminate.
Qed.

Lemma last_failure_none es : forall d,
  last_of failure_message d es = None <->
  d = None /\ Forall (fun e => failure_message e = None) es.
Proof.
  induction es as [|e t IH]; intros d.
  - simpl. split; [intros ->; split; [reflexivity | constructor] | intros [-> _]; reflexivity].
  - change (last_of failure_message d (e :: t))
      with (last_of failure_message
              (match failure_message e with Some a => a | None => d end) t).
    rewrite IH. destruct (failure_message e) as [m|] eqn:E.
    + split.
      * intros [-> _]. exfalso. exact (failure_message_some e None E eq_refl).
      * intros [_ H]. inversion H. congruence.
    + split.
      * intros [-> H]. split; [reflexivity | constructor; assumption].
      * intros [-> H]. inversion H. split; [reflexivity | assumption].
Qed.

Lemma lower_ascii_idempotent c : lower_ascii (lower_ascii c) = lower_ascii c.
Proof.
  destruct c as [[] [] [] [] [] [] [] []]; reflexivity.
Qed.

Lemma toLowerCase_idempotent s : toLowerCase (toLowerCase s) = toLowerCase s.
Proof.
  induction s as [|c s IH]; simpl; [reflexivity|].
  rewrite lower_ascii_idempotent, IH. reflexivity.
Qed.

End LastEvent.

Section Cells.

Lemma last_of_cases {A} (f : event -> option A) es : forall d,
  last_of f d es = d \/ exists e, In e es /\ f e = Some (last_of f d es).
Proof.
  induction es as [|e t IH]; intros d; [left; reflexivity|].
  change (last_of f d (e :: t))
    with (last_of f (match f e with Some a => a | None => d end) t).
  destruct (IH (match f e with Some a => a | None => d end)) as [H|(x & Hin & Hx)].
  - rewrite H. destruct (f e) as [a|] eqn:E.
    + right. exists e. split; [left; reflexivity | exact E].
    + left. reflexivity.
  - right. exists x. split; [right; exact Hin | exact Hx].
Qed.

Lemma settings_step e w w1 :
  step e w = Some w1 ->
  theme (home w1)
  = match theme_picked e with Some a => a | None => theme (home w) end /\
  showBreedNames (home w1)
  = match names_switched e with Some a => a | None => showBreedNames (home w) end /\
  searchTerm (home w1)
  = match term_typed e with Some a => a | None => searchTerm (home w) end.
Proof.
  intros H. destruct e as [r|i rs|b|value|shuffled|t|checked]; simpl in H.
  - destruct (_ && _); [|discriminate]. injection H as <-.
    unfold fetchBreeds_settle. simpl.
    destruct (fetchBreeds_try r); repeat split.
  - destruct (nth_error _ _) as [selected|]; [|discriminate].
    destruct (_ && _); [|discriminate]. injection H as <-.
    unfold fetchImages_settle. simpl.
    destruct (fetchImages_try selected rs); repeat split.
  - destruct (mutation_keeps (Tick b) w w1 eq_refl H) as (_ & _ & Hs & _ & Ht & Hn).
    repeat split; assumption.
  - injection H as <-. repeat split.
  - destruct (mutation_keeps (ClickRandom shuffled) w w1 eq_refl H)
      as (_ & _ & Hs & _ & Ht & Hn).
    repeat split; assumption.
  - injection H as <-. repeat split.
  - injection H as <-. repeat split.
Qed.

Lemma failure_message_text e m :
  failure_message e = Some m ->
  m = Some "Error fetching breeds" \/ m = Some "Error fetching images".
Proof.
  destruct e as [r|i rs|b|value|shuffled|t|checked]; simpl; try discriminate.
  - destruct (breeds_fetch_fails r); [|discriminate].
    intros H. injection H as <-. left. reflexivity.
  - destruct (forallb _ rs); [discriminate|].
    intros H. injection H as <-. right. reflexivity.
Qed.

End Cells.

(** X8.  The error slot holds the message of the most recent fetch that
    failed, whichever it was, and nothing ever clears it: it is empty
    exactly when no fetch has failed since the page was mounted, a later
    success of either fetch leaves it in place, and whenever it is set the
    banner is rendered with that message. *)
Theorem error_is_last_failure (es : list event) (w : World)
    (Hrun : run es mount = Some w) :
  error (home w) = last_of failure_message None es /\
  (error (home w) = None <-> Forall (fun e => failure_message e = None) es) /\
  errorBanner (home w) = error (home w) /\
  (forall es' w',
     run es' w = Some w' -> error (home w) <> None -> error (home w') <> None).
Proof.
  assert (Hlast : error (home w) = last_of failure_message None es)
    by (apply (run_last_of (fun x => error (home x)) failure_message error_step
                           es mount w Hrun)).
  split; [exact Hlast|]. split; [|split].
  - rewrite Hlast, last_failure_none. split; [intros [_ H]; exact H | auto].
  - unfold errorBanner. rewrite Hlast.
    destruct (last_of_cases failure_message es None) as [->|(e & _ & He)];
      [reflexivity|].
    destruct (failure_message_text e _ He) as [->| ->]; reflexivity.
  - intros es' w' Hrun' Hset Hnone.
    rewrite (run_last_of (fun x => error (home x)) failure_message error_step
                         es' w w' Hrun') in Hnone.
    apply last_failure_none in Hnone. apply Hset, Hnone.
Qed.

Lemma error_is_last_failure_witness :
  error (home (after [BreedsSettled four_breeds; Tick "akita";
                      ImagesSettled 0 [NetworkError]; Tick "beagle";
                      ImagesSettled 0 [images_body akita_urls;
                                       images_body beagle_urls]]))
  = Some "Error fetching images".
Proof.
  exact (proj1 (error_is_last_failure
           [BreedsSettled four_breeds; Tick "akita";
            ImagesSettled 0 [NetworkError]; Tick "beagle";
            ImagesSettled 0 [images_body akita_urls; images_body beagle_urls]]
           (after [BreedsSettled four_breeds; Tick "akita";
                   ImagesSettled 0 [NetworkError]; Tick "beagle";
                   ImagesSettled 0 [images_body akita_urls; images_body beagle_urls]])
           eq_refl)).
Defined.

(** X9.  Theme, names switch and search term are settings apart from the
    data: each holds what the last action on its own control left (the
    initial value if there was none), whatever was fetched, ticked or
    failed in between.  The theme is therefore always one of the three
    radio values, the "Dog Theme" label is highlighted exactly under the dog
    theme, and the search term is always stored in lower case. *)
Theorem settings_follow_last_action (es : list event) (w : World)
    (Hrun : run es mount = Some w) :
  theme (home w) = last_of theme_picked "light" es /\
  showBreedNames (home w) = last_of names_switched true es /\
  searchTerm (home w) = last_of term_typed EmptyString es /\
  (theme (home w) = "light" \/ theme (home w) = "dark" \/
   theme (home w) = "dog-theme") /\
  (dogLabelClass (home w) = "highlighted" <-> theme (home w) = "dog-theme") /\
  toLowerCase (searchTerm (home w)) = searchTerm (home w).
Proof.
  assert (Ht : theme (home w) = last_of theme_picked "light" es).
  { apply (run_last_of (fun x => theme (home x)) theme_picked) with (w0 := mount);
      [|exact Hrun].
    intros e x x1 H. apply (settings_step e x x1 H). }
  assert (Hn : showBreedNames (home w) = last_of names_switched true es).
  { apply (run_last_of (fun x => showBreedNames (home x)) names_switched)
      with (w0 := mount); [|exact Hrun].
    intros e x x1 H. apply (settings_step e x x1 H). }
  assert (Hs : searchTerm (home w) = last_of term_typed EmptyString es).
  { apply (run_last_of (fun x => searchTerm (home x)) term_typed)
      with (w0 := mount); [|exact Hrun].
    intros e x x1 H. apply (settings_step e x x1 H). }
  assert (Hthree : theme (home w) = "light" \/ theme (home w) = "dark" \/
                   theme (home w) = "dog-theme").
  { rewrite Ht.
    destruct (last_of_cases theme_picked es "light") as [->|(e & _ & He)];
      [left; reflexivity|].
    destruct e as [r|i rs|b|value|shuffled|t|checked]; try discriminate.
    simpl in He. injection He as He. rewrite <- He.
    destruct t; simpl; auto. }
  split; [exact Ht|]. split; [exact Hn|]. split; [exact Hs|].
  split; [exact Hthree|]. split.
  - unfold dogLabelClass.
    destruct Hthree as [->|[->| ->]]; simpl; split; intros H;
      try discriminate; reflexivity.
  - rewrite Hs.
    destruct (last_of_cases term_typed es EmptyString) as [->|(e & _ & He)];
      [reflexivity|].
    destruct e as [r|i rs|b|value|shuffled|t|checked]; try discriminate.
    simpl in He. injection He as He. rewrite <- He.
    apply toLowerCase_idempotent.
Qed.

Lemma settings_follow_last_action_witness :
  theme (home (after [PickTheme Dark; BreedsSettled NetworkError;
                      TypeSearch "LAB"; PickTheme DogTheme; ClickRandom []]))
  = "dog-theme".
Proof.
  exact (proj1 (settings_follow_last_action
           [PickTheme Dark; BreedsSettled NetworkError;
            TypeSearch "LAB"; PickTheme DogTheme; ClickRandom []]
           (after [PickTheme Dark; BreedsSettled NetworkError;
                   TypeSearch "LAB"; PickTheme DogTheme; ClickRandom []])
           eq_refl)).
Defined.

(** ** Bodies the catalog endpoint is not expected to send *)

(** X10.  [fetchBreeds] validates nothing beyond what [Object.keys] throws
    on: whenever the parsed body has a [message] other than [null], no error
    is recorded and the catalog is replaced by the sorted keys of that
    value.  The keys are the property names of an object, the indices 0, 1,
    ... in decimal of a string or of an array, as many as it is long, and
    none for a number or a boolean. *)
Theorem catalog_from_any_message (status : nat) (data m : json) (h : Home)
    (Hmsg : message data = Normal (Some m))
    (Hm : m <> JNull) :
  let keys := match m with
              | JObj props => map fst props
              | JArr items => map index_key (seq 0 (List.length items))
              | JStr s => map index_key (seq 0 (String.length s))
              | _ => []
              end in
  Object_keys (Some m) = Normal keys /\
  fetchBreeds_try (HttpResponse status (Some data)) = Normal (sort keys) /\
  fetchBreeds_settle (HttpResponse status (Some data)) h = setBreeds (sort keys) h /\
  breeds (fetchBreeds_settle (HttpResponse status (Some data)) h) = sort keys /\
  error (fetchBreeds_settle (HttpResponse status (Some data)) h) = error h /\
  Permutation (breeds (fetchBreeds_settle (HttpResponse status (Some data)) h)) keys /\
  List.length (breeds (fetchBreeds_settle (HttpResponse status (Some data)) h))
  = match m with
    | JObj props => List.length props
    | JArr items => List.length items
    | JStr s => String.length s
    | _ => 0
    end /\
  index_key 0 = "0" /\ index_key 7 = "7" /\ index_key 10 = "10".
Proof.
  intros keys.
  assert (Hkeys : Object_keys (Some m) = Normal keys).
  { unfold keys. destruct m; try reflexivity. contradiction. }
  assert (Htry : fetchBreeds_try (HttpResponse status (Some data))
                 = Normal (sort keys)).
  { unfold fetchBreeds_try. cbn [fetch_json bind]. rewrite Hmsg.
    cbn [bind]. rewrite Hkeys. reflexivity. }
  assert (Hset : fetchBreeds_settle (HttpResponse status (Some data)) h
                 = setBreeds (sort keys) h).
  { unfold fetchBreeds_settle. rewrite Htry. reflexivity. }
  split; [exact Hkeys|]. split; [exact Htry|]. split; [exact Hset|].
  rewrite Hset. cbn [setBreeds breeds error].
  split; [reflexivity|]. split; [reflexivity|]. split; [apply sort_perm|].
  split; [|repeat split].
  rewrite (Permutation_length (sort_perm keys)). unfold keys.
  destruct m; try reflexivity; try contradiction.
  - rewrite length_map, length_seq. reflexivity.
  - rewrite length_map, length_seq. reflexivity.
  - apply length_map.
Qed.

Lemma catalog_from_any_message_witness :
  breeds (fetchBreeds_settle
            (HttpResponse 404 (Some (JObj [("status", JStr "error");
                                           ("message", JStr "no route");
                                           ("code", JNum "404")])))
            initialHome)
  = ["0"; "1"; "2"; "3"; "4"; "5"; "6"; "7"] /\
  error (fetchBreeds_settle
           (HttpResponse 404 (Some (JObj [("status", JStr "error");
                                          ("message", JStr "no route");
                                          ("code", JNum "404")])))
           initialHome) = None.
Proof.
  destruct (catalog_from_any_message 404
              (JObj [("status", JStr "error"); ("message", JStr "no route");
                     ("code", JNum "404")])
              (JStr "no route") initialHome eq_refl ltac:(discriminate))
    as (_ & _ & _ & Hb & He & _).
  split; [exact Hb | exact He].
Defined.

(** ** The picker *)

Section Picker.

Lemma includes_empty s : includes s EmptyString = true.
Proof. rewrite includes_unfold. destruct s; reflexivity. Qed.

Lemma append_assoc a b c : ((a ++ b) ++ c)%string = (a ++ b ++ c)%string.
Proof. induction a as [|x a IH]; simpl; [reflexivity | rewrite IH; reflexivity]. Qed.

Lemma includes_trans s t u :
  includes s t = true -> includes t u = true -> includes s u = true.
Proof.
  rewrite !includes_spec. intros (p1 & q1 & ->) (p2 & q2 & ->).
  exists (p1 ++ p2)%string, (q2 ++ q1)%string.
  rewrite !append_assoc. reflexivity.
Qed.

Lemma filter_keeps_all {A} (f : A -> bool) l :
  (forall x, In x l -> f x = true) -> filter f l = l.
Proof.
  induction l as [|x t IH]; simpl; intros H; [reflexivity|].
  rewrite (H x (or_introl eq_refl)). f_equal. apply IH. intros y Hy. apply H. right. exact Hy.
Qed.

Lemma filter_filter_implied {A} (f g : A -> bool) l :
  (forall x, g x = true -> f x = true) ->
  filter g (filter f l) = filter g l.
Proof.
  intros H. induction l as [|x t IH]; simpl; [reflexivity|].
  destruct (f x) eqn:Ef; simpl.
  - destruct (g x); [f_equal|]; exact IH.
  - destruct (g x) eqn:Eg; [|exact IH].
    rewrite (H x Eg) in Ef. discriminate.
Qed.

End Picker.

(** X11.  An empty search term shows the whole catalog, and refining the
    term only narrows the list: when the new term contains the old one,
    every breed shown for the new term was shown for the old one, and
    filtering what the old term showed by the new term gives the same rows
    as filtering the catalog. *)
Theorem filter_narrows (catalog : list string) (old new : string)
    (Hrefined : includes new old = true) :
  filteredBreeds catalog EmptyString = catalog /\
  incl (filteredBreeds catalog new) (filteredBreeds catalog old) /\
  filteredBreeds (filteredBreeds catalog old) new = filteredBreeds catalog new /\
  List.length (filteredBreeds catalog new) <= List.length (filteredBreeds catalog old).
Proof.
  assert (Himp : forall name,
            includes (toLowerCase name) new = true ->
            includes (toLowerCase name) old = true)
    by (intros name H; eapply includes_trans; eassumption).
  assert (Hcomp : filteredBreeds (filteredBreeds catalog old) new
                  = filteredBreeds catalog new)
    by (unfold filteredBreeds; apply filter_filter_implied, Himp).
  split; [|split; [|split]].
  - unfold filteredBreeds. apply filter_keeps_all.
    intros name _. apply includes_empty.
  - intros name H. unfold filteredBreeds in *. rewrite filter_In in *.
    split; [apply H | apply Himp, H].
  - exact Hcomp.
  - rewrite <- Hcomp. unfold filteredBreeds at 1. apply filter_length_le.
Qed.

Lemma filter_narrows_witness :
  incl (filteredBreeds ["affenpinscher"; "labrador"; "malamute"] "lab")
       (filteredBreeds ["affenpinscher"; "labrador"; "malamute"] "la").
Proof.
  exact (proj1 (proj2 (filter_narrows
                         ["affenpinscher"; "labrador"; "malamute"] "la" "lab"
                         eq_refl))).
Defined.

Section Rows.

Lemma toggle_In b prev x :
  In x (toggle b prev) <-> (x = b /\ ~ In b prev) \/ (x <> b /\ In x prev).
Proof.
  destruct (in_dec string_dec b prev) as [Hin|Hout].
  - rewrite (toggle_present b prev Hin), filter_In. split.
    + intros [Hx Hne]. right. split; [|exact Hx].
      intros ->. rewrite String.eqb_refl in Hne. discriminate.
    + intros [[_ H]|[Hne Hx]]; [contradiction|]. split; [exact Hx|].
      apply negb_true_iff, String.eqb_neq, Hne.
  - rewrite (toggle_absent b prev Hout), in_app_iff. split.
    + intros [Hx|[<-|[]]].
      * right. split; [intros ->; contradiction | exact Hx].
      * left. split; [reflexivity | exact Hout].
    + intros [[-> _]|[_ Hx]]; [right; left; reflexivity | left; exact Hx].
Qed.

(** The [checked] prop of every row after a tick. *)
Lemma Array_includes_toggle b prev x :
  Array_includes (toggle b prev) x
  = if String.eqb x b then negb (Array_includes prev b) else Array_includes prev x.
Proof.
  destruct (Array_includes (toggle b prev) x) eqn:E.
  - apply Array_includes_In, toggle_In in E.
    destruct E as [[-> Hout]|[Hne Hx]].
    + rewrite String.eqb_refl. apply Array_includes_not_In in Hout.
      rewrite Hout. reflexivity.
    + apply String.eqb_neq in Hne. rewrite Hne.
      symmetry. apply Array_includes_In, Hx.
  - apply Array_includes_not_In in E. rewrite toggle_In in E.
    destruct (String.eqb_spec x b) as [->|Hne].
    + destruct (Array_includes prev b) eqn:Eb; [reflexivity|].
      exfalso. apply E. left. split; [reflexivity|].
      apply Array_includes_not_In, Eb.
    + symmetry. apply Array_includes_not_In. intros Hx. apply E. right. auto.
Qed.

Lemma filter_out_length b l :
  NoDup l -> In b l ->
  S (List.length (filter (fun x => negb (String.eqb x b)) l)) = List.length l.
Proof.
  induction 1 as [|x t Hx Ht IH]; intros Hin; [contradiction|].
  simpl. destruct (String.eqb_spec x b) as [->|Hne]; simpl.
  - rewrite filter_out_id by exact Hx. reflexivity.
  - f_equal. apply IH. destruct Hin; [congruence | assumption].
Qed.

Lemma checked_count selected l :
  NoDup l -> NoDup selected -> incl selected l ->
  List.length (filter (Array_includes selected) l) = List.length selected.
Proof.
  intros Hl Hs Hincl. apply Permutation_length, NoDup_Permutation.
  - apply NoDup_filter, Hl.
  - exact Hs.
  - intros x. rewrite filter_In, Array_includes_In. split.
    + intros [_ H]. exact H.
    + intros H. split; [apply Hincl, H | exact H].
Qed.

Lemma checked_rows catalog selected term :
  map row_key (filter row_checked (BreedSelector catalog selected term))
  = filter (Array_includes selected) (filteredBreeds catalog term).
Proof.
  unfold BreedSelector.
  induction (filteredBreeds catalog term) as [|x t IH]; simpl; [reflexivity|].
  destruct (Array_includes selected x); simpl; [f_equal|]; exact IH.
Qed.

Lemma row_keys catalog selected term :
  map row_key (BreedSelector catalog selected term) = filteredBreeds catalog term.
Proof.
  unfold BreedSelector. rewrite map_map. simpl. apply map_id.
Qed.

End Rows.

(** X12.  In every reachable state the rows of the picker have pairwise
    different keys (and ids, which equal the keys), each names a breed of
    the catalog, and a row is checked exactly when its breed is selected.
    With an empty search term there is one row per catalog breed, in
    catalog order, and as many checked rows as selected breeds. *)
Theorem picker_rows (w : World) (Hw : reachable w) :
  NoDup (map row_key (picker (home w))) /\
  (forall r, In r (picker (home w)) ->
     row_id r = row_key r /\ row_label r = row_key r /\
     In (row_key r) (breeds (home w)) /\
     (row_checked r = true <-> In (row_key r) (selectedBreeds (home w)))) /\
  (searchTerm (home w) = EmptyString ->
     map row_key (picker (home w)) = breeds (home w) /\
     List.length (filter row_checked (picker (home w)))
     = List.length (selectedBreeds (home w))).
Proof.
  destruct (reachable_coherent w Hw) as ((Hnd & Hsel & Hincl & _) & _).
  unfold picker. split; [|split].
  - rewrite row_keys. apply NoDup_filter, Hnd.
  - intros r Hr. unfold BreedSelector in Hr. apply in_map_iff in Hr.
    destruct Hr as (name & <- & Hname). simpl.
    split; [reflexivity|]. split; [reflexivity|].
    split; [apply (filteredBreeds_incl _ _ _ Hname) | apply Array_includes_In].
  - intros Hterm. rewrite Hterm.
    assert (Hall : filteredBreeds (breeds (home w)) EmptyString = breeds (home w)).
    { unfold filteredBreeds. apply filter_keeps_all.
      intros name _. apply includes_empty. }
    split; [rewrite row_keys; exact Hall|].
    rewrite <- (length_map row_key), checked_rows, Hall.
    apply checked_count; assumption.
Qed.

Lemma picker_rows_witness :
  List.length
    (filter row_checked
       (picker (home (after [BreedsSettled four_breeds; Tick "chow"; Tick "akita"]))))
  = 2.
Proof.
  exact (proj2 (proj2 (proj2 (picker_rows
           (after [BreedsSettled four_breeds; Tick "chow"; Tick "akita"])
           (ex_intro _ [BreedsSettled four_breeds; Tick "chow"; Tick "akita"]
                     eq_refl))) eq_refl)).
Defined.

(** X13.  Ticking a checkbox flips that row and no other: after the tick
    the picker shows the same rows in the same order, the row of the ticked
    breed with [checked] negated and every other row as it was. *)
Theorem tick_flips_one_row (w w' : World) (b : string)
    (Hstep : step (Tick b) w = Some w') :
  In b (map row_key (picker (home w))) /\
  picker (home w')
  = map (fun r => if String.eqb (row_key r) b
                  then mkRow (row_key r) (row_id r) (negb (row_checked r)) (row_label r)
                  else r)
        (picker (home w)).
Proof.
  simpl in Hstep.
  destruct (Array_includes _ b) eqn:Ein; [|discriminate]. injection Hstep as <-.
  split.
  - unfold picker. rewrite row_keys. apply Array_includes_In, Ein.
  - unfold picker.
    rewrite effect_breeds, effect_selectedBreeds, effect_searchTerm. simpl.
    unfold BreedSelector. rewrite map_map. apply map_ext_in.
    intros name Hname. simpl. rewrite Array_includes_toggle.
    destruct (String.eqb_spec name b) as [->|Hne]; reflexivity.
Qed.

Lemma tick_flips_one_row_witness :
  map row_checked
      (picker (home (after [BreedsSettled four_breeds; Tick "chow"; Tick "akita"])))
  = [true; false; true; false].
Proof.
  rewrite (proj2 (tick_flips_one_row
                    (after [BreedsSettled four_breeds; Tick "chow"])
                    (after [BreedsSettled four_breeds; Tick "chow"; Tick "akita"])
                    "akita" eq_refl)).
  reflexivity.
Defined.

(** X14.  In a selection without duplicates a tick changes the number of
    selected breeds by exactly one, and the only breed whose membership
    changes is the ticked one. *)
Theorem toggle_changes_one (prev : list string) (b : string)
    (Hprev : NoDup prev) :
  (forall x, x <> b -> (In x (toggle b prev) <-> In x prev)) /\
  (In b (toggle b prev) <-> ~ In b prev) /\
  (In b prev -> S (List.length (toggle b prev)) = List.length prev) /\
  (~ In b prev -> List.length (toggle b prev) = S (List.length prev)).
Proof.
  split; [|split; [|split]].
  - intros x Hne. rewrite toggle_In. split.
    + intros [[-> _]|[_ H]]; [contradiction | exact H].
    + intros H. right. auto.
  - rewrite toggle_In. split.
    + intros [[_ H]|[H _]]; [exact H | contradiction].
    + intros H. left. auto.
  - intros Hin. rewrite (toggle_present b prev Hin).
    apply filter_out_length; assumption.
  - intros Hout. rewrite (toggle_absent b prev Hout), length_app. simpl. lia.
Qed.

Lemma toggle_changes_one_witness :
  S (List.length (toggle "beagle" ["akita"; "beagle"; "chow"])) = 3.
Proof.
  apply (proj1 (proj2 (proj2 (toggle_changes_one ["akita"; "beagle"; "chow"] "beagle"
                  (proj1 (distinct_NoDup ["akita"; "beagle"; "chow"]) eq_refl))))).
  simpl. auto.
Defined.

(** X15.  Ticks of two breeds commute up to the order of the selection:
    either order of the two ticks selects the same breeds, and the very
    same array when both breeds were selected before. *)
Theorem toggles_commute (prev : list string) (a b : string)
    (Hprev : NoDup prev) :
  Permutation (toggle a (toggle b prev)) (toggle b (toggle a prev)) /\
  (In a prev -> In b prev -> toggle a (toggle b prev) = toggle b (toggle a prev)).
Proof.
  split.
  - apply NoDup_Permutation.
    + apply toggle_NoDup, toggle_NoDup, Hprev.
    + apply toggle_NoDup, toggle_NoDup, Hprev.
    + intros x. rewrite !toggle_In.
      destruct (string_dec x a) as [Hxa|Hxa], (string_dec x b) as [Hxb|Hxb];
        destruct (in_dec string_dec a prev), (in_dec string_dec b prev),
                 (in_dec string_dec x prev);
        subst; intuition congruence.
  - intros Ha Hb. destruct (string_dec a b) as [->|Hne]; [reflexivity|].
    assert (Ha' : In a (toggle b prev)) by (apply toggle_In; right; auto).
    assert (Hb' : In b (toggle a prev)) by (apply toggle_In; right; auto).
    rewrite (toggle_present a _ Ha'), (toggle_present b _ Hb'),
      (toggle_present b _ Hb), (toggle_present a _ Ha).
    clear. induction prev as [|x t IH]; simpl; [reflexivity|].
    destruct (String.eqb x a) eqn:Exa, (String.eqb x b) eqn:Exb; simpl;
      rewrite ?Exa, ?Exb; simpl; try exact IH. f_equal. exact IH.
Qed.

Lemma toggles_commute_witness :
  Permutation (toggle "akita" (toggle "chow" ["beagle"]))
              (toggle "chow" (toggle "akita" ["beagle"])).
Proof.
  exact (proj1 (toggles_commute ["beagle"] "akita" "chow"
                  (proj1 (distinct_NoDup ["beagle"]) eq_refl))).
Defined.

(** ** Batches and tiles *)

Section Batches.

Lemma gallery_app s1 : forall s2 u1 u2,
  List.length u1 = List.length s1 ->
  gallery (s1 ++ s2) (u1 ++ u2) = gallery s1 u1 ++ gallery s2 u2.
Proof.
  unfold gallery.
  induction s1 as [|b t IH]; intros s2 u1 u2 Hlen.
  - destruct u1; [reflexivity | discriminate].
  - destruct u1 as [|us u1]; [discriminate|].
    simpl in Hlen. injection Hlen as Hlen.
    simpl. rewrite (IH s2 u1 u2 Hlen), app_assoc. reflexivity.
Qed.

Lemma image_urls_length rs urls :
  map image_urls rs = map Some urls -> List.length urls = List.length rs.
Proof.
  intros H. apply (f_equal (@List.length _)) in H.
  rewrite !length_map in H. congruence.
Qed.

Lemma grid_from f k (l : list ImageEntry) :
  (forall image index, tile_key (f image index) = index) ->
  map tile_key (Array_mapi_from f k l) = seq k (List.length l).
Proof.
  intros Hf. revert k. induction l as [|x t IH]; intros k; simpl; [reflexivity|].
  rewrite Hf, IH. reflexivity.
Qed.

Lemma mapi_map {A B C} (f : A -> nat -> B) (g : B -> C) (h : A -> C) k l :
  (forall x index, g (f x index) = h x) ->
  map g (Array_mapi_from f k l) = map h l.
Proof.
  intros Hf. revert k. induction l as [|x t IH]; intros k; simpl; [reflexivity|].
  rewrite Hf, IH. reflexivity.
Qed.

Lemma mapi_In {A B} (f : A -> nat -> B) l : forall k y,
  In y (Array_mapi_from f k l) -> exists x index, In x l /\ y = f x index.
Proof.
  induction l as [|x t IH]; intros k y H; [contradiction|].
  destruct H as [<-|H].
  - exists x, k. split; [left; reflexivity | reflexivity].
  - destruct (IH (S k) y H) as (x' & i & Hin & ->).
    exists x', i. split; [right; exact Hin | reflexivity].
Qed.

End Batches.

(** X16.  A batch for two selections laid end to end behaves as the two
    batches one after the other: it commits the concatenation of their
    galleries when both succeed and nothing when either fails. *)
Theorem batch_concatenates (selected1 selected2 : list string)
    (rs1 rs2 : list fetch_result)
    (Hlen1 : List.length rs1 = List.length selected1)
    (Hlen2 : List.length rs2 = List.length selected2) :
  fetchImages_try (selected1 ++ selected2) (rs1 ++ rs2)
  = match fetchImages_try selected1 rs1, fetchImages_try selected2 rs2 with
    | Normal all1, Normal all2 => Normal (all1 ++ all2)
    | _, _ => Throw
    end.
Proof.
  destruct (success_or_failure rs1) as [(urls1 & Hu1)|(r & Hin & Hr)].
  - rewrite (fetchImages_try_ok selected1 rs1 urls1 Hlen1 Hu1).
    destruct (success_or_failure rs2) as [(urls2 & Hu2)|(r & Hin & Hr)].
    + rewrite (fetchImages_try_ok selected2 rs2 urls2 Hlen2 Hu2).
      rewrite (fetchImages_try_ok (selected1 ++ selected2) (rs1 ++ rs2)
                                  (urls1 ++ urls2)).
      * rewrite gallery_app; [reflexivity|].
        rewrite (image_urls_length rs1 urls1 Hu1). exact Hlen1.
      * rewrite !length_app. congruence.
      * rewrite !map_app. congruence.
    + rewrite (fetchImages_try_fail selected2 rs2) by eauto.
      apply fetchImages_try_fail. exists r. split; [|exact Hr].
      apply in_or_app. right. exact Hin.
  - rewrite (fetchImages_try_fail selected1 rs1) by eauto.
    apply fetchImages_try_fail. exists r. split; [|exact Hr].
    apply in_or_app. left. exact Hin.
Qed.

Lemma batch_concatenates_witness :
  fetchImages_try (["akita"] ++ ["beagle"])
                  ([images_body akita_urls] ++ [images_body beagle_urls])
  = Normal (gallery ["akita"] [map JStr akita_urls] ++
            gallery ["beagle"] [map JStr beagle_urls]).
Proof.
  exact (batch_concatenates ["akita"] ["beagle"]
           [images_body akita_urls] [images_body beagle_urls] eq_refl eq_refl).
Defined.

(** X17.  The grid renders one tile per gallery entry, in order: the keys
    are the positions 0, 1, 2, ... and so pairwise different even when an
    image occurs twice, source and caption are the URL and the breed of the
    entry, the alt text is the breed followed by " dog", and all tiles
    carry the class chosen by the names switch.  In every reachable state
    each caption is a breed of the catalog. *)
Theorem grid_tiles (w : World) (Hw : reachable w) :
  map tile_key (grid (home w)) = seq 0 (List.length (images (home w))) /\
  NoDup (map tile_key (grid (home w))) /\
  map tile_src (grid (home w)) = map url (images (home w)) /\
  map tile_caption (grid (home w)) = map breed (images (home w)) /\
  Forall (fun t =>
            In (tile_caption t) (breeds (home w)) /\
            tile_alt t = (tile_caption t ++ " dog")%string /\
            tile_class t = tileClass (showBreedNames (home w)))
         (grid (home w)).
Proof.
  assert (Hkeys : map tile_key (grid (home w))
                  = seq 0 (List.length (images (home w))))
    by (unfold grid; apply grid_from; reflexivity).
  split; [exact Hkeys|]. split; [rewrite Hkeys; apply seq_NoDup|].
  split; [unfold grid; apply mapi_map; reflexivity|].
  split; [unfold grid; apply mapi_map; reflexivity|].
  destruct (reachable_coherent w Hw) as (_ & (_ & _ & Himg & _)).
  rewrite Forall_forall in *. intros t Ht.
  unfold grid in Ht. apply mapi_In in Ht. destruct Ht as (image & index & Hin & ->).
  simpl. split; [apply Himg, Hin | split; reflexivity].
Qed.

Lemma grid_tiles_witness :
  map tile_key
      (grid (home (after [BreedsSettled four_breeds; Tick "akita";
                          ImagesSettled 0 [images_body ["a.jpg"; "a.jpg"; "c.jpg"]]])))
  = [0; 1; 2].
Proof.
  exact (proj1 (grid_tiles
           (after [BreedsSettled four_breeds; Tick "akita";
                   ImagesSettled 0 [images_body ["a.jpg"; "a.jpg"; "c.jpg"]]])
           (ex_intro _ [BreedsSettled four_breeds; Tick "akita";
                        ImagesSettled 0 [images_body ["a.jpg"; "a.jpg"; "c.jpg"]]]
                     eq_refl))).
Defined.
